(** * sr-simulations: single-well/statistics.py

    A shallow embedding of the analysis routines of [statistics.py]
    ([residence_time], [signaltonoise], [fourier_spectrum]) and the
    properties of the level-crossing detector, the residence-time
    extraction and the spectral helpers.

    Python values are modelled as follows.
    - A numpy array or list of numbers is a [list] of scalars; an index is
      a [Z]; Python's negative indices wrap around once ([getitem]).
    - An exception is a [Raise] in the [result] monad.
    - The scalar type is abstract ([Scalar]): the routines use a handful of
      arithmetic operations and two comparisons.  The instance the code
      runs with is IEEE-754 binary64 ([float64], Python's [float] and
      numpy's [float64]), with its rounding, infinities, NaN and signed
      zeros.  Structural properties are proved for every instance;
      properties of the numbers are proved for binary64. *)

From Stdlib Require Import ZArith List Bool Lia.
From Stdlib Require Import Sorting.Sorted Sorting.Permutation.
From Stdlib Require Import PrimFloat Uint63 SpecFloat FloatOps FloatAxioms.
From Stdlib Require String.
Import ListNotations.

#[local] Set Warnings "-inexact-float,-register-all".

(* ================================================================== *)
(** ** The Python run time the code relies on *)
(* ================================================================== *)

Module Py.

(** The exceptions the modelled code can raise. *)
Inductive exn : Type :=
| IndexError
| TypeError
| ValueError
| ZeroDivisionError.

(** A computation that returns a value or raises. *)
Inductive result (A : Type) : Type :=
| Ok (a : A)
| Raise (e : exn).

Arguments Ok {A} a.
Arguments Raise {A} e.

Definition bind {A B : Type} (c : result A) (k : A -> result B) : result B :=
  match c with
  | Ok a => k a
  | Raise e => Raise e
  end.

(** [len(x)] *)
Definition len {A : Type} (x : list A) : Z := Z.of_nat (length x).

(** [range(a, b)] for integers: [a, a+1, ..., b-1]. *)
Definition range2 (a b : Z) : list Z :=
  map (fun k => a + Z.of_nat k)%Z (seq 0 (Z.to_nat (b - a))).

(** [range(n)] *)
Definition range (n : Z) : list Z := range2 0 n.

(** [x[k]] on a sequence: indices [0 .. n-1] read from the front, indices
    [-n .. -1] read from the back ([x[-1]] is the last element), anything
    else raises [IndexError]. *)
Definition getitem {A : Type} (x : list A) (k : Z) : result A :=
  let n := len x in
  let j := (if k <? 0 then n + k else k)%Z in
  if ((0 <=? j) && (j <? n))%Z
  then match nth_error x (Z.to_nat j) with
       | Some v => Ok v
       | None => Raise IndexError
       end
  else Raise IndexError.

(** A [for] loop over a list of indices threading the loop state; an
    exception in the body leaves the loop. *)
Fixpoint for_each {S : Type} (body : S -> Z -> result S) (idxs : list Z)
  (s : S) : result S :=
  match idxs with
  | [] => Ok s
  | i :: rest => bind (body s i) (for_each body rest)
  end.

(** [a and b] where [b] is evaluated only when [a] is true. *)
Definition and_then (a : bool) (b : result bool) : result bool :=
  if a then b else Ok false.

(** Element-wise binary operation on two arrays of the same shape. *)
Fixpoint map2 {A B C : Type} (f : A -> B -> C) (l : list A) (r : list B)
  : list C :=
  match l, r with
  | a :: l', b :: r' => f a b :: map2 f l' r'
  | _, _ => []
  end.

(** [a[idx]] with an array of indices [idx] (numpy fancy indexing): every
    index is looked up as in [getitem]. *)
Fixpoint take {A : Type} (a : list A) (idx : list Z) : result (list A) :=
  match idx with
  | [] => Ok []
  | i :: rest =>
      bind (getitem a i) (fun v =>
      bind (take a rest) (fun vs => Ok (v :: vs)))
  end.

End Py.

Import Py.

Declare Scope py_scope.
Notation "x <- c ;; k" := (bind c (fun x => k))
  (at level 61, c at next level, right associativity) : py_scope.
Open Scope py_scope.
Open Scope Z_scope.

(* ================================================================== *)
(** ** Scalars *)
(* ================================================================== *)

(** The operations on numbers that [statistics.py] uses. *)
Class Scalar (F : Type) : Type := {
  zero : F;
  one : F;
  add : F -> F -> F;
  sub : F -> F -> F;
  mul : F -> F -> F;
  div : F -> F -> F;
  absv : F -> F;            (* np.abs *)
  eqb : F -> F -> bool;     (* == *)
  ltb : F -> F -> bool;     (* <  ([a > b] is [ltb b a]) *)
  of_int : Z -> F           (* an integer used in float arithmetic *)
}.

(** IEEE-754 binary64, as Python's [float] and numpy's [float64].  The
    conversion of an integer is exact below [2^53] and rounds to nearest
    below [2^63]; the indices and lengths converted here are far smaller. *)
Definition float_of_int (z : Z) : float :=
  if z <? 0
  then PrimFloat.opp (PrimFloat.of_uint63 (Uint63.of_Z (- z)))
  else PrimFloat.of_uint63 (Uint63.of_Z z).

#[export] Instance float64 : Scalar float := {
  zero := 0%float;
  one := 1%float;
  add := PrimFloat.add;
  sub := PrimFloat.sub;
  mul := PrimFloat.mul;
  div := PrimFloat.div;
  absv := PrimFloat.abs;
  eqb := PrimFloat.eqb;
  ltb := PrimFloat.ltb;
  of_int := float_of_int
}.

(* ================================================================== *)
(** ** residence_time *)
(* ================================================================== *)

(** The second column of [crossing_indices]: ["*"] is the null label of
    the initial row, ["+"] and ["-"] are the two sides. *)
Inductive label : Type :=
| Star
| Plus
| Minus.

Definition label_eqb (a b : label) : bool :=
  match a, b with
  | Star, Star | Plus, Plus | Minus, Minus => true
  | _, _ => false
  end.

(** A row [(i, label)] of [crossing_indices].  numpy stores the row as two
    strings; the index is read back with [int(i)]. *)
Definition crossing : Type := (Z * label)%type.

(** [crossing_indices[-1][-1]] *)
Definition last_label (crossing_indices : list crossing) : result label :=
  row <- getitem crossing_indices (-1) ;;
  Ok (snd row).

Section Model.

Context {F : Type} `{Scalar F}.

(** [tol = 1e-3] and [dt = 1e-3] (lines 76 and 78): in binary64 the
    quotient [1/1000] is the literal [1e-3]. *)
Definition tol : F := div one (of_int 1000).
Definition dt : F := div one (of_int 1000).

(** The body of the [for] loop (lines 81-106) at index [i]. *)
Definition scan_step (tol flags : F) (x : list F)
  (crossing_indices : list crossing) (i : Z) : result (list crossing) :=
  xi <- getitem x i ;;
  if eqb xi zero then Ok crossing_indices            (* continue *)
  else
    up <- and_then (ltb (absv (sub xi flags)) tol)
            (xp <- getitem x (i - 1) ;; Ok (ltb zero (sub xi xp))) ;;
    if up then
      if 1 <? len crossing_indices then
        l <- last_label crossing_indices ;;
        if label_eqb l Minus
        then Ok (crossing_indices ++ [(i, Plus)])
        else Ok crossing_indices
      else Ok (crossing_indices ++ [(i, Plus)])
    else
      down <- and_then (ltb (absv (add xi flags)) tol)
                (xp <- getitem x (i - 1) ;; Ok (ltb (sub xi xp) zero)) ;;
      if down then
        if 1 <? len crossing_indices then
          l <- last_label crossing_indices ;;
          if label_eqb l Plus
          then Ok (crossing_indices ++ [(i, Minus)])
          else Ok crossing_indices
        else Ok (crossing_indices ++ [(i, Minus)])
      else Ok crossing_indices.

(** Lines 71-106: the scan over [range(len(x))], started from the null
    row [(0, "*")]. *)
Definition crossing_scan (tol flags : F) (x : list F)
  : result (list crossing) :=
  let steps := len x in
  for_each (scan_step tol flags x) (range steps) [(0, Star)].

(** Lines 110-116: the time series anchored at its first entry and the
    differences of consecutive entries. *)
Definition rt_extract (dt : F) (crossing_indices : list crossing)
  : result (list F * list F) :=
  let rtseries := map (fun c => mul dt (of_int (fst c))) crossing_indices in
  t0 <- getitem rtseries 0 ;;
  let rtseries := map (fun t => sub t t0) rtseries in
  let rtdistribution := map2 sub (tl rtseries) (removelast rtseries) in
  Ok (rtseries, rtdistribution).

(** [residence_time] with the two local constants as parameters. *)
Definition residence_time_with (tol dt : F) (x : list F) (flags : F)
  : result (list crossing * list F * list F) :=
  crossing_indices <- crossing_scan tol flags x ;;
  let crossing_indices := tl crossing_indices in     (* [1:] *)
  r <- rt_extract dt crossing_indices ;;
  Ok (crossing_indices, fst r, snd r).

(** [residence_time(x, flags)] *)
Definition residence_time (x : list F) (flags : F)
  : result (list crossing * list F * list F) :=
  residence_time_with tol dt x flags.

End Model.

(* ================================================================== *)
(** ** signaltonoise *)
(* ================================================================== *)

(** The values an index expression of [signaltonoise] can take: a Python
    integer, a numpy array of integers, or a Python tuple. *)
Inductive pyindex : Type :=
| PInt (n : Z)
| PArray (a : list Z)
| PTuple (items : list pyindex).

(** The positions at which a mask is true, counted from [i]. *)
Fixpoint nonzero_from (i : Z) (mask : list bool) : list Z :=
  match mask with
  | [] => []
  | b :: rest =>
      if b then i :: nonzero_from (i + 1) rest
      else nonzero_from (i + 1) rest
  end.

(** [np.where(mask)] with a single argument: a tuple with one entry per
    dimension, here one, holding the array of positions. *)
Definition np_where (mask : list bool) : pyindex :=
  PTuple [PArray (nonzero_from 0 mask)].

(** The truth value of [v == n] in an [if], [n] a Python integer: a tuple
    never equals an integer; an array is compared element by element and
    has a truth value when it holds at most one element. *)
Definition truth_eq_int (v : pyindex) (n : Z) : result bool :=
  match v with
  | PInt m => Ok (m =? n)
  | PArray [] => Ok false
  | PArray [m] => Ok (m =? n)
  | PArray _ => Raise ValueError
  | PTuple _ => Ok false
  end.

(** [v - n] and [v + n], [n] a Python integer: arithmetic on an integer,
    broadcast over an array, [TypeError] on a tuple. *)
Definition arith_int (op : Z -> Z -> Z) (v : pyindex) (n : Z)
  : result pyindex :=
  match v with
  | PInt m => Ok (PInt (op m n))
  | PArray a => Ok (PArray (map (fun m => op m n) a))
  | PTuple _ => Raise TypeError
  end.

(** [ps[key]] on a one-dimensional array: an integer selects one entry
    (kept as a one-element list), an array or a one-tuple holding an array
    selects the entries it lists, the empty tuple the whole array; a longer
    tuple has too many indices. *)
Definition index_by {A : Type} (ps : list A) (key : pyindex)
  : result (list A) :=
  match key with
  | PInt k | PTuple [PInt k] => v <- getitem ps k ;; Ok [v]
  | PArray a | PTuple [PArray a] => take ps a
  | PTuple [] => Ok ps
  | PTuple _ => Raise IndexError
  end.

(** What [signaltonoise] returns: the integer [0] of the two early returns,
    or the array of ratios in decibels. *)
Inductive snr (F : Type) : Type :=
| SnrZero
| SnrArray (db : list F).

Arguments SnrZero {F}.
Arguments SnrArray {F} db.

(** The sample interval as it reaches [np.fft.fftfreq]: a Python number
    (the default [1e-3], or any [float] or [int] literal of a caller) or a
    numpy scalar (an entry of an array, [np.float64(...)]).  Both hold a
    binary64 number; they differ in the division [1.0 / (n * d)]: Python
    raises [ZeroDivisionError] on a zero divisor, numpy returns an
    infinity or NaN. *)
Inductive interval (F : Type) : Type :=
| PyNumber (d : F)
| NpScalar (d : F).

Arguments PyNumber {F} d.
Arguments NpScalar {F} d.

Section Spectral.

Context {F : Type} `{Scalar F}.

(** [np.log10], left uninterpreted. *)
Variable log10 : F -> F.

(** [np.abs(np.fft.fft(X))[k]]: the magnitude of the [k]-th bin of the
    discrete Fourier transform of [X], left uninterpreted.  The transform
    of [n] samples has the [n] bins [0 .. n-1]. *)
Variable fft_abs_at : list F -> Z -> F.

(** [signaltonoise(fs, ps, f_d)] *)
Definition signaltonoise (fs ps : list F) (f_d : F) : result (snr F) :=
  let idx := np_where (map (fun f => eqb f f_d) fs) in
  signal <- index_by ps idx ;;
  at_first <- truth_eq_int idx 0 ;;
  if at_first then Ok SnrZero
  else
    at_end <- truth_eq_int idx (len fs) ;;
    if at_end then Ok SnrZero
    else
      below <- arith_int Z.sub idx 1 ;;
      lo <- index_by ps below ;;
      above <- arith_int Z.add idx 1 ;;
      hi <- index_by ps above ;;
      let noise := map (mul (div one (of_int 2))) (map2 add lo hi) in
      Ok (SnrArray
            (map (fun r => mul (of_int 10) (log10 r)) (map2 div signal noise))).

(** [val = 1.0 / (n * d)], the first line of [np.fft.fftfreq]. *)
Definition bin_spacing (n : Z) (d : interval F) : result F :=
  match d with
  | PyNumber v =>
      let nd := mul (of_int n) v in
      if eqb nd zero then Raise ZeroDivisionError else Ok (div one nd)
  | NpScalar v => Ok (div one (mul (of_int n) v))
  end.

(** [np.fft.fftfreq(n, d)] *)
Definition fftfreq (n : Z) (d : interval F) : result (list F) :=
  val <- bin_spacing n d ;;
  let N := (n - 1) / 2 + 1 in
  let results := range2 0 N ++ range2 (- (n / 2)) 0 in
  Ok (map (fun k => mul (of_int k) val) results).

(** The order numpy sorts floating-point keys by: [a] goes before [b] when
    [a < b], or when [b] is NaN (the one value that differs from itself)
    and [a] is not, so that NaN keys end up last. *)
Definition np_lt (a b : F) : bool :=
  ltb a b || (negb (eqb b b) && eqb a a).

(** [np.argsort], left uninterpreted: numpy fixes the positions it returns
    up to the order of equal keys, which depends on the sorting method and
    on the length of the array. *)
Variable np_argsort : list F -> list Z.

(** [fourier_spectrum(X, sample_freq)]; [np.fft.fft] rejects an empty
    signal. *)
Definition fourier_spectrum (X : list F) (sample_freq : interval F)
  : result (list F * list F) :=
  let n := len X in
  if n <? 1 then Raise ValueError
  else
    let ps := map (fun k => let a := fft_abs_at X k in mul a a) (range n) in
    freqs <- fftfreq n sample_freq ;;
    let idx := np_argsort freqs in
    fs <- take freqs idx ;;
    ps' <- take ps idx ;;
    Ok (fs, ps').

(** Insertion of the pair [(k, i)] into a list of pairs ordered by key,
    in front of the first entry whose key does not go before [k]. *)
Fixpoint insert_key (k : F) (i : Z) (sorted : list (F * Z)) : list (F * Z) :=
  match sorted with
  | [] => [(k, i)]
  | (k', i') :: rest =>
      if np_lt k' k then (k', i') :: insert_key k i rest
      else (k, i) :: sorted
  end.

Definition sort_keys (pairs : list (F * Z)) : list (F * Z) :=
  fold_right (fun p acc => insert_key (fst p) (snd p) acc) [] pairs.

(** One sorting method that meets the contract of [np.argsort]: the
    positions of [keys] in ascending order of key, by insertion (equal
    keys keep their order; numpy sorts arrays of up to 16 entries this
    way). *)
Definition argsort (keys : list F) : list Z :=
  map snd (sort_keys (combine keys (range (len keys)))).

End Spectral.

(* ================================================================== *)
(** ** Predicates used in the statements *)
(* ================================================================== *)

(** The two sides a crossing can be tagged with. *)
Definition is_side (s : label) : Prop := s = Plus \/ s = Minus.

Definition opposite (s : label) : label :=
  match s with
  | Plus => Minus
  | Minus => Plus
  | Star => Star
  end.

(** [R] relates every entry of [l] to the entry that follows it. *)
Definition consecutive {A : Type} (R : A -> A -> Prop) (l : list A) : Prop :=
  forall (k : nat) (a b : A),
    nth_error l k = Some a -> nth_error l (S k) = Some b -> R a b.

(** The invariant of the scan before index [i]: the null row, then rows
    with indices in [0, i), tagged with a side, each at a larger index and
    on the other side than the row before it. *)
Definition scan_inv (i : Z) (acc : list crossing) : Prop :=
  exists cs : list crossing,
    acc = (0, Star) :: cs
    /\ Forall (fun c => 0 <= fst c < i /\ is_side (snd c)) cs
    /\ consecutive (fun a b => fst a < fst b /\ snd a <> snd b) cs.

(** What one step of the scan may do to the rows accepted so far: nothing,
    or append the row [(i, s)] when only the null row is there or the last
    row is on the other side. *)
Definition step_outcome (acc acc' : list crossing) (i : Z) : Prop :=
  acc' = acc
  \/ exists s : label,
       is_side s /\ acc' = acc ++ [(i, s)]
       /\ (len acc <= 1 \/ last_label acc = Ok (opposite s)).

(** The signal of the end-to-end scenario A of the specification, and a
    constant signal away from both thresholds [+1] and [-1]. *)
Definition scenario_A : list float :=
  [0; 0.5; 1.0; 1.0; 0.5; -1.0; -1.0; 0.2; 1.0]%float.

Definition constant_half : list float := [0.5; 0.5]%float.

(** A signal whose first sample sits on the upper threshold and whose last
    sample lies below it. *)
Definition starts_on_threshold : list float := [1.0; 0.5]%float.

(** An array in ascending order, as numpy orders it: no entry goes before
    an earlier one. *)
Definition ascending {F : Type} `{Scalar F} (l : list F) : Prop :=
  StronglySorted (fun a b => np_lt b a = false) l.

(** An array in strictly ascending order. *)
Definition strictly_ascending {F : Type} `{Scalar F} (l : list F) : Prop :=
  StronglySorted (fun a b => np_lt a b = true) l.

(** The contract of [np.argsort]: it returns a rearrangement of the
    positions [0 .. len(keys)-1], and the keys read at these positions are
    in ascending order. *)
Definition sorts {F : Type} `{Scalar F} (sorter : list F -> list Z) : Prop :=
  forall keys : list F,
    Permutation (sorter keys) (range (len keys))
    /\ exists vals, take keys (sorter keys) = Ok vals /\ ascending vals.

(** The magnitudes of the two bins of the transform of a two-sample signal
    [a, b]: [|a + b|] and [|a - b|]. *)
Definition fft_abs_two (X : list float) (k : Z) : float :=
  match X with
  | [a; b] =>
      if k =? 0 then PrimFloat.abs (PrimFloat.add a b)
      else PrimFloat.abs (PrimFloat.sub a b)
  | _ => 0%float
  end.

(** A signal that stays below the upper threshold, touches it once and
    falls to the lower threshold ten samples later. *)
Definition late_fall : list float :=
  ([0.5; 1] ++ repeat 0.5 9 ++ [-1])%float.

(* ================================================================== *)
(** ** Binary64 numbers *)
(* ================================================================== *)

(** The place of a binary64 value in the order numpy sorts by: the
    negative infinity, the negative numbers, the two zeros, the positive
    numbers, the positive infinity, NaN; numbers of one sign are ordered
    by exponent, then by mantissa. *)
Definition np_rank (x : spec_float) : Z * Z * Z :=
  match x with
  | S754_nan => (3, 0, 0)
  | S754_infinity false => (2, 0, 0)
  | S754_finite false m e => (1, e, Zpos m)
  | S754_zero _ => (0, 0, 0)
  | S754_finite true m e => (-1, - e, Zneg m)
  | S754_infinity true => (-2, 0, 0)
  end.

(** The lexicographic order of triples of integers. *)
Definition lex_lt (a b : Z * Z * Z) : Prop :=
  fst (fst a) < fst (fst b)
  \/ (fst (fst a) = fst (fst b)
      /\ (snd (fst a) < snd (fst b)
          \/ (snd (fst a) = snd (fst b) /\ snd a < snd b))).

(** [x] is the negation of [y], the sign of a zero left aside:
    [(-a) + (-b)] and [-(a + b)] differ in it when the sum is zero. *)
Definition negated (x y : spec_float) : Prop :=
  match x, y with
  | S754_zero _, S754_zero _ => True
  | _, _ => x = SFopp y
  end.

(** [M / 2^n] rounded to the nearest integer, a tie to the even one. *)
Definition rne (M n : Z) : Z :=
  let q := M / 2 ^ n in
  let r := M mod 2 ^ n in
  if 2 * r <? 2 ^ n then q
  else if 2 ^ n <? 2 * r then q + 1
  else if Z.even q then q else q + 1.

(** The binary64 number with the mantissa [q], of at most 53 bits or
    [2^53], and the exponent [E]. *)
Definition finish (q E : Z) : spec_float :=
  if q =? 0 then S754_zero false
  else if q <? 2 ^ 53
  then (if E <=? 971 then S754_finite false (Z.to_pos q) E
        else S754_infinity false)
  else (if E + 1 <=? 971 then S754_finite false (Z.to_pos (2 ^ 52)) (E + 1)
        else S754_infinity false).

(** The exponent binary64 gives a number of magnitude [2^(mag-1) .. 2^mag]. *)
Definition fexp64 (mag : Z) : Z := Z.max (mag - 53) (-1074).

(** The binary64 number nearest to [V * 2^b], [0 <= V]. *)
Definition round64 (b V : Z) : spec_float :=
  let E := fexp64 (Z.log2 V + 1 + b) in
  finish (rne V (E - b)) E.

(** The state [mrs] of the shift register holds [M / 2^k]: its mantissa
    is the quotient, its two bits tell where the remainder lies with
    respect to one half. *)
Definition located (M k : Z) (mrs : shr_record) : Prop :=
  let rho := M - shr_m mrs * 2 ^ k in
  0 <= shr_m mrs /\ 0 <= rho < 2 ^ k
  /\ match shr_r mrs, shr_s mrs with
     | false, false => rho = 0
     | false, true => 0 < 2 * rho < 2 ^ k
     | true, false => 2 * rho = 2 ^ k
     | true, true => 2 ^ k < 2 * rho
     end.

(** The value of a finite binary64 number, in units of [2^-2200]: small
    enough a unit for the numbers and for the exact products of two of
    them to be integers. *)
Definition value64 (x : spec_float) : Z :=
  match x with
  | S754_finite _ m e => Z.pos m * 2 ^ (e + 2200)
  | _ => 0
  end.

(** [+0] and the positive finite numbers. *)
Definition nonneg_finite (x : spec_float) : bool :=
  match x with
  | S754_zero false | S754_finite false _ _ => true
  | _ => false
  end.

(* ================================================================== *)
(** ** Candidates of the scan *)
(* ================================================================== *)

(** The test the loop body applies to the sample at index [i] (lines 81,
    83 and 95): no candidate when the sample is exactly 0, a Positive
    candidate when it is within [tol] of [+flags] and above its
    predecessor, otherwise a Negative candidate when it is within [tol] of
    [-flags] and below its predecessor. *)
Definition candidate_side {F : Type} `{Scalar F} (tol flags : F)
  (x : list F) (i : Z) : option label :=
  match getitem x i, getitem x (i - 1) with
  | Ok xi, Ok xp =>
      if eqb xi zero then None
      else if ltb (absv (sub xi flags)) tol && ltb zero (sub xi xp)
      then Some Plus
      else if ltb (absv (add xi flags)) tol && ltb (sub xi xp) zero
      then Some Minus
      else None
  | _, _ => None
  end.

(** No sample strictly between the indices [a] and [b] is a candidate of
    side [s]. *)
Definition no_candidate_between {F : Type} `{Scalar F} (tol flags : F)
  (x : list F) (a b : Z) (s : label) : Prop :=
  forall k, a < k < b -> candidate_side tol flags x k <> Some s.

(** The invariant of the scan before index [i], in terms of candidates:
    every accepted row is a candidate at an index below [i]; no sample
    before the first accepted row is a candidate (none below [i] when no
    row is accepted); each accepted row is on the other side than the row
    before it, with no candidate of its side in between; and no sample
    after the last accepted row is a candidate of the other side. *)
Definition report_inv {F : Type} `{Scalar F} (tol flags : F) (x : list F)
  (i : Z) (acc : list crossing) : Prop :=
  exists cs : list crossing,
    acc = (0, Star) :: cs
    /\ Forall (fun c => 0 <= fst c < i
                        /\ candidate_side tol flags x (fst c) = Some (snd c)) cs
    /\ (forall c, nth_error cs 0 = Some c ->
                  forall k, 0 <= k < fst c -> candidate_side tol flags x k = None)
    /\ (cs = [] -> forall k, 0 <= k < i -> candidate_side tol flags x k = None)
    /\ consecutive (fun a b => snd b = opposite (snd a)
                               /\ no_candidate_between tol flags x
                                    (fst a) (fst b) (snd b)) cs
    /\ (forall c, nth_error cs (length cs - 1) = Some c ->
                  no_candidate_between tol flags x (fst c) i (opposite (snd c))).

(** The crossing sequence with every side replaced by the other one. *)
Definition flip_sides (cs : list crossing) : list crossing :=
  map (fun c => (fst c, opposite (snd c))) cs.

(** The result of a computation passed through [h]. *)
Definition lift {S T : Type} (h : S -> T) (c : result S) : result T :=
  match c with
  | Ok s => Ok (h s)
  | Raise e => Raise e
  end.

(* ================================================================== *)
(** ** signal_ensemble: the ticks of the time axis *)
(* ================================================================== *)

(** [range(start, stop, step)] for a positive [step]:
    [start, start + step, ...] below [stop]. *)
Definition range3 (start stop step : Z) : list Z :=
  map (fun j => start + Z.of_nat j * step)
      (seq 0 (Z.to_nat ((stop - start + step - 1) / step))).

(** [l[::step]] for a positive [step]: the entries at the positions
    [0, step, 2 * step, ...] of [l]. *)
Definition slice_step {A : Type} (l : list A) (step : Z) : list A :=
  flat_map (fun i => match nth_error l (Z.to_nat i) with
                     | Some v => [v]
                     | None => []
                     end)
           (range3 0 (len l) step).

(** Lines 196-198 of [signal_ensemble]: the positions and the labels
    handed to [plt.xticks]; [fmt] is the formatting [f"{t:.2f}"] of a
    time. *)
Definition x_ticks {F : Type} (fmt : F -> String.string) (ts : list F)
  : list Z * list String.string :=
  let x_t_pos := range3 0 1000 100 in
  let x_t_labels := map fmt (slice_step ts 100) in
  (x_t_pos, x_t_labels).

(* ================================================================== *)
(** ** Lists, indexing and loops *)
(* ================================================================== *)

Section Runtime.

Context {A : Type}.

Lemma len_nonneg (x : list A) : 0 <= len x.
Proof. unfold len; lia. Qed.

Lemma len_app (x y : list A) : len (x ++ y) = len x + len y.
Proof. unfold len; rewrite length_app; lia. Qed.

Lemma getitem_front (x : list A) (k : Z) :
  0 <= k < len x ->
  exists v, getitem x k = Ok v /\ nth_error x (Z.to_nat k) = Some v.
Proof.
  intros Hk. unfold getitem.
  replace (k <? 0) with false by (symmetry; apply Z.ltb_ge; lia).
  replace ((0 <=? k) && (k <? len x)) with true
    by (symmetry; apply andb_true_iff; split;
        [apply Z.leb_le | apply Z.ltb_lt]; lia).
  destruct (nth_error x (Z.to_nat k)) as [v|] eqn:E.
  - exists v; split; reflexivity.
  - apply nth_error_None in E. unfold len in Hk. lia.
Qed.

Lemma getitem_back (x : list A) (k : Z) :
  - len x <= k < 0 ->
  getitem x k = getitem x (len x + k).
Proof.
  intros Hk. unfold getitem.
  replace (k <? 0) with true by (symmetry; apply Z.ltb_lt; lia).
  replace (len x + k <? 0) with false by (symmetry; apply Z.ltb_ge; lia).
  reflexivity.
Qed.

Lemma getitem_nil (k : Z) : getitem (@nil A) k = Raise IndexError.
Proof.
  unfold getitem. change (len (@nil A)) with 0.
  destruct ((0 <=? (if k <? 0 then 0 + k else k))
            && ((if k <? 0 then 0 + k else k) <? 0)) eqn:E; [|reflexivity].
  apply andb_true_iff in E. destruct E as [E1 E2].
  apply Z.leb_le in E1. apply Z.ltb_lt in E2. lia.
Qed.

Lemma getitem_last_snoc (x : list A) (a : A) :
  getitem (x ++ [a]) (-1) = Ok a.
Proof.
  assert (Hlen : len (x ++ [a]) = len x + 1)
    by (rewrite len_app; reflexivity).
  pose proof (len_nonneg x) as Hx.
  rewrite getitem_back by lia.
  destruct (getitem_front (x ++ [a]) (len (x ++ [a]) + -1))
    as (v & Hv & Hn); [lia|].
  rewrite Hv. f_equal.
  replace (Z.to_nat (len (x ++ [a]) + -1)) with (length x)
    in Hn by (rewrite Hlen; unfold len; lia).
  rewrite nth_error_app2 in Hn by lia.
  rewrite Nat.sub_diag in Hn. simpl in Hn. congruence.
Qed.

Lemma range2_empty (a b : Z) : b <= a -> range2 a b = [].
Proof.
  intros Hab. unfold range2.
  replace (Z.to_nat (b - a)) with 0%nat by lia. reflexivity.
Qed.

Lemma range2_cons (a b : Z) : a < b -> range2 a b = a :: range2 (a + 1) b.
Proof.
  intros Hab. unfold range2.
  replace (Z.to_nat (b - a)) with (S (Z.to_nat (b - (a + 1)))) by lia.
  simpl. f_equal; [lia|].
  rewrite <- seq_shift, map_map.
  apply map_ext. intros k. lia.
Qed.

Lemma range2_length (a b : Z) : length (range2 a b) = Z.to_nat (b - a).
Proof. unfold range2. rewrite length_map, length_seq. reflexivity. Qed.

Lemma range2_In (a b k : Z) : In k (range2 a b) <-> a <= k < b.
Proof.
  unfold range2. rewrite in_map_iff. split.
  - intros (j & <- & Hj). apply in_seq in Hj. lia.
  - intros Hk. exists (Z.to_nat (k - a)). split; [lia|].
    apply in_seq. lia.
Qed.

End Runtime.

(** A loop over [range2 a b] establishes [P b] from [P a] when every
    iteration returns and carries [P i] to [P (i + 1)]. *)
Lemma for_each_range_inv {S : Type} (body : S -> Z -> result S)
  (P : Z -> S -> Prop) (n : nat) :
  forall (a b : Z) (s : S),
    Z.to_nat (b - a) = n ->
    a <= b ->
    P a s ->
    (forall i t, a <= i < b -> P i t ->
                 exists t', body t i = Ok t' /\ P (i + 1) t') ->
    exists s', for_each body (range2 a b) s = Ok s' /\ P b s'.
Proof.
  induction n as [|n IH]; intros a b s Hn Hab HP Hbody.
  - rewrite range2_empty by lia. exists s. split; [reflexivity|].
    replace b with a by lia. exact HP.
  - rewrite range2_cons by lia. simpl.
    destruct (Hbody a s ltac:(lia) HP) as (t & Ht & HPt).
    rewrite Ht. simpl.
    apply IH; try lia; auto.
    intros i u Hi. apply Hbody. lia.
Qed.

Lemma consecutive_nil {A : Type} (R : A -> A -> Prop) : consecutive R [].
Proof. intros k a b Ha. destruct k; discriminate. Qed.

Lemma consecutive_one {A : Type} (R : A -> A -> Prop) (a : A) :
  consecutive R [a].
Proof. intros k u v _ Hv. destruct k; discriminate. Qed.

Lemma consecutive_snoc {A : Type} (R : A -> A -> Prop) (l : list A) (b : A) :
  consecutive R l ->
  (forall a, nth_error l (length l - 1) = Some a -> R a b) ->
  consecutive R (l ++ [b]).
Proof.
  intros Hl Hlast k u v Hu Hv.
  destruct (Nat.lt_ge_cases (S k) (length l)) as [Hk|Hk].
  - rewrite nth_error_app1 in Hu by lia.
    rewrite nth_error_app1 in Hv by lia.
    eapply Hl; eauto.
  - assert (Hlen : (S k < length (l ++ [b]))%nat)
      by (apply nth_error_Some; congruence).
    rewrite length_app in Hlen; simpl in Hlen.
    assert (S k = length l) by lia.
    rewrite nth_error_app1 in Hu by lia.
    rewrite nth_error_app2 in Hv by lia.
    replace (S k - length l)%nat with 0%nat in Hv by lia.
    simpl in Hv. injection Hv as <-.
    apply Hlast. replace (length l - 1)%nat with k by lia. exact Hu.
Qed.

Lemma consecutive_weaken {A : Type} (R Q : A -> A -> Prop) (l : list A) :
  (forall a b, R a b -> Q a b) -> consecutive R l -> consecutive Q l.
Proof. intros HRQ Hl k a b Ha Hb. apply HRQ. eapply Hl; eauto. Qed.

(* ================================================================== *)
(** ** The crossing scan *)
(* ================================================================== *)

Lemma last_label_spec (acc : list crossing) :
  acc <> [] ->
  exists row, nth_error acc (length acc - 1) = Some row
              /\ last_label acc = Ok (snd row).
Proof.
  intros Hne. unfold last_label.
  assert (Hlen : 0 < len acc)
    by (destruct acc; [congruence | unfold len; simpl; lia]).
  rewrite getitem_back by lia.
  destruct (getitem_front acc (len acc + -1)) as (row & Hrow & Hn); [lia|].
  exists row. rewrite Hrow. split; [|reflexivity].
  replace (length acc - 1)%nat with (Z.to_nat (len acc + -1))
    by (unfold len; lia).
  exact Hn.
Qed.

Lemma opposite_neq (s : label) : is_side s -> opposite s <> s.
Proof. intros [-> | ->]; discriminate. Qed.

Lemma label_eqb_eq (a b : label) : label_eqb a b = true <-> a = b.
Proof. destruct a, b; simpl; split; congruence. Qed.

Section Scan.

Context {F : Type} `{Scalar F}.

(** The read of the predecessor [x[i-1]] never fails inside the loop: at
    [i = 0] it wraps to the last sample. *)
Lemma getitem_pred (x : list F) (i : Z) :
  0 <= i < len x -> exists v, getitem x (i - 1) = Ok v.
Proof.
  intros Hi. destruct (Z.eq_dec i 0) as [-> | Hnz].
  - rewrite getitem_back by (simpl; lia).
    destruct (getitem_front x (len x + (0 - 1))) as (v & Hv & _); [lia|].
    eauto.
  - destruct (getitem_front x (i - 1)) as (v & Hv & _); [lia|]. eauto.
Qed.

(** The acceptance rule shared by the two branches of the loop body. *)
Lemma accept_outcome (acc : list crossing) (i : Z) (s : label) :
  is_side s ->
  exists acc',
    (if 1 <? len acc
     then l <- last_label acc ;;
          if label_eqb l (opposite s) then Ok (acc ++ [(i, s)]) else Ok acc
     else Ok (acc ++ [(i, s)])) = Ok acc'
    /\ step_outcome acc acc' i.
Proof.
  intros Hs. destruct (1 <? len acc) eqn:Elen.
  - apply Z.ltb_lt in Elen.
    destruct (last_label_spec acc) as (row & _ & Hl).
    { intros ->. unfold len in Elen; simpl in Elen; lia. }
    rewrite Hl; simpl.
    destruct (label_eqb (snd row) (opposite s)) eqn:El.
    + apply label_eqb_eq in El. eexists; split; [reflexivity|].
      right. exists s. rewrite Hl, El. auto.
    + eexists; split; [reflexivity|]. left; reflexivity.
  - apply Z.ltb_ge in Elen. eexists; split; [reflexivity|].
    right. exists s. auto.
Qed.

(** The iteration left the accepted rows as they were. *)
Ltac rows_unchanged acc :=
  exists acc; split; [reflexivity | left; reflexivity].

(** Inside the loop every iteration returns, and it leaves the accepted
    rows alone or appends one row under the acceptance rule. *)
Lemma scan_step_outcome (tol flags : F) (x : list F) (acc : list crossing)
  (i : Z) :
  0 <= i < len x ->
  exists acc', scan_step tol flags x acc i = Ok acc'
               /\ step_outcome acc acc' i.
Proof.
  intros Hi. unfold scan_step.
  destruct (getitem_front x i Hi) as (xi & Hxi & _). rewrite Hxi; simpl.
  destruct (getitem_pred x i Hi) as (xp & Hxp).
  destruct (eqb xi zero); [rows_unchanged acc|].
  unfold and_then. rewrite Hxp; simpl.
  assert (Hdown :
    exists acc',
      (down <- (if ltb (absv (add xi flags)) tol
                then Ok (ltb (sub xi xp) zero) else Ok false) ;;
       if down
       then if 1 <? len acc
            then l <- last_label acc ;;
                 if label_eqb l Plus
                 then Ok (acc ++ [(i, Minus)]) else Ok acc
            else Ok (acc ++ [(i, Minus)])
       else Ok acc) = Ok acc'
      /\ step_outcome acc acc' i).
  { destruct (ltb (absv (add xi flags)) tol); simpl;
      [|rows_unchanged acc].
    destruct (ltb (sub xi xp) zero); [|rows_unchanged acc].
    apply (accept_outcome acc i Minus). right; reflexivity. }
  destruct (ltb (absv (sub xi flags)) tol); simpl; [|exact Hdown].
  destruct (ltb zero (sub xi xp)); [|exact Hdown].
  apply (accept_outcome acc i Plus). left; reflexivity.
Qed.

Lemma scan_inv_step (acc acc' : list crossing) (i : Z) :
  0 <= i ->
  scan_inv i acc -> step_outcome acc acc' i -> scan_inv (i + 1) acc'.
Proof.
  intros Hi (cs & -> & Hall & Hcons) [-> | (s & Hs & -> & Hrule)].
  - exists cs. split; [reflexivity|]. split; [|exact Hcons].
    eapply Forall_impl; [|exact Hall]. simpl; intros c [Hc Hc']. split; [lia|auto].
  - exists (cs ++ [(i, s)]). split; [reflexivity|]. split.
    + apply Forall_app. split.
      * eapply Forall_impl; [|exact Hall]. simpl; intros c [Hc Hc']. split; [lia|auto].
      * constructor; [|constructor]. simpl. split; [lia|auto].
    + apply consecutive_snoc; [exact Hcons|].
      intros a Ha. simpl.
      assert (Hin : In a cs) by (eapply nth_error_In; eauto).
      rewrite Forall_forall in Hall. destruct (Hall a Hin) as [Hlt _].
      split; [lia|].
      destruct cs as [|c cs']; [destruct Hin|].
      destruct Hrule as [Hlen | Hlast].
      { unfold len in Hlen; simpl in Hlen; lia. }
      destruct (last_label_spec ((0, Star) :: c :: cs'))
        as (row & Hrow & Hl); [discriminate|].
      rewrite Hl in Hlast. injection Hlast as Hopp.
      assert (row = a).
      { simpl in Hrow, Ha.
        unfold crossing in *. rewrite Nat.sub_0_r in Ha. congruence. }
      subst row. rewrite Hopp. apply opposite_neq. exact Hs.
Qed.

(** The scan returns for every signal, and its result satisfies the
    invariant at [len x]. *)
Lemma crossing_scan_inv (tol flags : F) (x : list F) :
  exists acc, crossing_scan tol flags x = Ok acc /\ scan_inv (len x) acc.
Proof.
  unfold crossing_scan, range.
  apply (for_each_range_inv (scan_step tol flags x) scan_inv
           (Z.to_nat (len x - 0))); try reflexivity.
  - apply len_nonneg.
  - exists []. split; [reflexivity|]. split; [constructor | apply consecutive_nil].
  - intros i acc Hi Hinv.
    destruct (scan_step_outcome tol flags x acc i Hi) as (acc' & Hstep & Hout).
    exists acc'. split; [exact Hstep|].
    eapply scan_inv_step; eauto. lia.
Qed.

End Scan.

(* ================================================================== *)
(** ** Properties of the crossing sequence *)
(* ================================================================== *)

Section Detector.

Context {F : Type} `{Scalar F}.

(** [rtseries[0]] on the empty series is out of range. *)
Lemma rt_extract_empty (dt : F) : rt_extract dt [] = Raise IndexError.
Proof. unfold rt_extract. simpl map. rewrite getitem_nil. reflexivity. Qed.

(** With no accepted row the function raises instead of returning. *)
Lemma residence_time_no_crossing (tol dt flags : F) (x : list F) :
  crossing_scan tol flags x = Ok [(0, Star)] ->
  residence_time_with tol dt x flags = Raise IndexError.
Proof.
  intros Hscan. unfold residence_time_with. rewrite Hscan. cbn [bind tl].
  rewrite rt_extract_empty. reflexivity.
Qed.

(** What [residence_time] returns as crossing sequence is the scan's result
    without the null row. *)
Lemma residence_time_crossings (tol dt flags : F) (x : list F)
  (acc ci : list crossing) (rts rtd : list F) :
  crossing_scan tol flags x = Ok acc ->
  residence_time_with tol dt x flags = Ok (ci, rts, rtd) ->
  ci = tl acc /\ rt_extract dt (tl acc) = Ok (rts, rtd).
Proof.
  intros Hscan. unfold residence_time_with. rewrite Hscan. cbn [bind].
  destruct (rt_extract dt (tl acc)) as [[r d]|e]; cbn [bind fst snd];
    [|discriminate].
  intros E. injection E as <- <- <-. split; reflexivity.
Qed.

(** A sample within tolerance of neither threshold leaves the accepted
    rows unchanged. *)
Lemma scan_step_far (tol flags : F) (x : list F) (acc : list crossing)
  (i : Z) (xi : F) :
  getitem x i = Ok xi ->
  ltb (absv (sub xi flags)) tol = false ->
  ltb (absv (add xi flags)) tol = false ->
  scan_step tol flags x acc i = Ok acc.
Proof.
  intros Hxi Hup Hdown. unfold scan_step. rewrite Hxi; simpl.
  rewrite Hup, Hdown. simpl. destruct (eqb xi zero); reflexivity.
Qed.

Lemma crossing_scan_far (tol flags : F) (x : list F) :
  Forall (fun v => ltb (absv (sub v flags)) tol = false
                   /\ ltb (absv (add v flags)) tol = false) x ->
  crossing_scan tol flags x = Ok [(0, Star)].
Proof.
  intros Hfar. unfold crossing_scan, range.
  destruct (@for_each_range_inv _ (scan_step tol flags x)
              (fun _ acc => acc = [(0, Star)])
              (Z.to_nat (len x - 0)) 0 (len x) [(0, Star)])
    as (acc & Hacc & ->); auto.
  - apply len_nonneg.
  - intros i acc Hi ->.
    destruct (getitem_front x i Hi) as (xi & Hxi & Hn).
    apply nth_error_In in Hn. rewrite Forall_forall in Hfar.
    destruct (Hfar xi Hn) as [Hup Hdown].
    exists [(0, Star)]. split; [|reflexivity].
    apply (scan_step_far tol flags x _ i xi); assumption.
Qed.

End Detector.

(** C1: for every signal and threshold magnitude (and every tolerance and
    scalar arithmetic) the scan returns the null row followed by a crossing
    sequence [cs] in which every row is tagged with a side and no row has
    the side of the row before it; this is the sequence [residence_time]
    hands back whenever it returns; and every iteration of the loop either
    leaves the accepted rows alone or appends the candidate, which it does
    only when nothing but the null row is there or the last accepted row
    has the opposite side. *)
Theorem crossing_sequence_alternates {F : Type} `{Scalar F}
  (tol dt flags : F) (x : list F) :
  exists cs : list crossing,
    crossing_scan tol flags x = Ok ((0, Star) :: cs)
    /\ Forall (fun c => is_side (snd c)) cs
    /\ consecutive (fun a b => snd a <> snd b) cs
    /\ (forall ci rts rtd,
          residence_time_with tol dt x flags = Ok (ci, rts, rtd) -> ci = cs)
    /\ (forall acc i, 0 <= i < len x ->
          exists acc', scan_step tol flags x acc i = Ok acc'
                       /\ step_outcome acc acc' i).
Proof.
  destruct (crossing_scan_inv tol flags x) as (acc & Hscan & cs & -> & Hall & Hcons).
  exists cs. split; [exact Hscan|]. split; [|split; [|split]].
  - eapply Forall_impl; [|exact Hall]. simpl; intros c [_ Hc]; exact Hc.
  - eapply consecutive_weaken; [|exact Hcons]. simpl; intros a b [_ Hab]; exact Hab.
  - intros ci rts rtd Hres.
    destruct (residence_time_crossings tol dt flags x _ ci rts rtd Hscan Hres) as [-> _]. reflexivity.
  - intros acc i Hi. apply scan_step_outcome. exact Hi.
Qed.

(** C2 (the code departs from the claim): the predecessor read at index 0
    is the read of the last sample, for every non-empty signal, and on the
    two-sample signal [1.0, 0.5] with threshold [1.0] the sample at index 0
    is accepted as a Positive crossing because it exceeds the last sample. *)
Theorem index0_compared_with_last_sample :
  (forall (F : Type) (x : list F),
      x <> [] -> getitem x (0 - 1) = getitem x (len x - 1))
  /\ residence_time starts_on_threshold 1%float
     = Ok ([(0, Plus)], [0%float], []).
Proof.
  split.
  - intros F x Hx. rewrite getitem_back; [reflexivity|].
    destruct x; [congruence|]. unfold len; simpl length. lia.
  - vm_compute. reflexivity.
Qed.

(** C3, as stated, fails: on the signal of scenario A with threshold 1.0,
    tolerance 0.05 and time step 1.0 the analysis returns three crossings
    and two distribution entries, not two and one. *)
Lemma scenario_A_has_three_crossings :
  exists ci rts rtd,
    residence_time_with 0.05%float 1%float scenario_A 1%float
    = Ok (ci, rts, rtd)
    /\ length ci = 3%nat /\ length rtd = 2%nat.
Proof.
  do 3 eexists. split; [vm_compute; reflexivity|]. split; reflexivity.
Qed.

(** C3, amended: on the signal of scenario A with threshold 1.0, tolerance
    0.05 and time step 1.0 the analysis returns exactly the three
    alternating crossings Positive at 2, Negative at 5, Positive at 8, the
    time series [0, 3, 6] and the two distribution entries [3, 3], each the
    index gap between neighbouring crossings; with the tolerance and time
    step the source fixes ([1e-3] both) the crossings are the same three
    and the distribution again has two entries. *)
Theorem scenario_A_result :
  residence_time_with 0.05%float 1%float scenario_A 1%float
  = Ok ([(2, Plus); (5, Minus); (8, Plus)],
        [0; 3; 6]%float, [3; 3]%float)
  /\ exists rts d1 d2,
       residence_time scenario_A 1%float
       = Ok ([(2, Plus); (5, Minus); (8, Plus)], rts, [d1; d2]).
Proof.
  split; [vm_compute; reflexivity|].
  do 3 eexists. vm_compute. reflexivity.
Qed.

(** C5, as stated, fails: the constant signal [0.5, 0.5] stays away from
    both thresholds [+1] and [-1], and [residence_time] raises on it. *)
Lemma constant_signal_raises :
  Forall (fun v => ltb (absv (sub v 1%float)) tol = false
                   /\ ltb (absv (add v 1%float)) tol = false) constant_half
  /\ residence_time constant_half 1%float = Raise IndexError.
Proof.
  split; [|vm_compute; reflexivity].
  repeat constructor.
Qed.

(** C5, amended: for every signal none of whose samples comes within the
    tolerance of either threshold, the scan accepts no crossing (its result
    is the null row alone, so the crossing sequence is empty), and
    [residence_time] does not return this empty sequence: anchoring the
    empty time series on its first entry raises [IndexError]. *)
Theorem far_signal_empty_crossings {F : Type} `{Scalar F}
  (tol dt flags : F) (x : list F) :
  Forall (fun v => ltb (absv (sub v flags)) tol = false
                   /\ ltb (absv (add v flags)) tol = false) x ->
  crossing_scan tol flags x = Ok [(0, Star)]
  /\ residence_time_with tol dt x flags = Raise IndexError.
Proof.
  intros Hfar. pose proof (crossing_scan_far tol flags x Hfar) as Hscan.
  split; [exact Hscan|]. apply residence_time_no_crossing. exact Hscan.
Qed.

Lemma far_signal_empty_crossings_witness :
  crossing_scan tol 1%float constant_half = Ok [(0, Star)]
  /\ residence_time_with tol dt constant_half 1%float = Raise IndexError.
Proof.
  apply (far_signal_empty_crossings (F := float)).
  repeat constructor.
Defined.

(** C6: when the crossing sequence is empty (the scan returns the null row
    alone) the extraction does not produce a time series or a
    distribution: the read of the first entry of the empty series raises
    [IndexError], both in the extraction on its own and in
    [residence_time]. *)
Theorem empty_crossings_rejected {F : Type} `{Scalar F}
  (tol dt flags : F) (x : list F) :
  crossing_scan tol flags x = Ok [(0, Star)] ->
  rt_extract dt [] = Raise IndexError
  /\ residence_time_with tol dt x flags = Raise IndexError.
Proof.
  intros Hscan. split.
  - apply rt_extract_empty.
  - apply residence_time_no_crossing. exact Hscan.
Qed.

(** The constant-zero signal of length 10: every sample is skipped. *)
Lemma empty_crossings_rejected_witness :
  rt_extract (F := float) dt [] = Raise IndexError
  /\ residence_time (repeat 0%float 10) 1%float = Raise IndexError.
Proof.
  apply (empty_crossings_rejected (F := float) tol dt 1%float
           (repeat 0%float 10)).
  vm_compute. reflexivity.
Defined.

(* ================================================================== *)
(** ** The residence-time extraction *)
(* ================================================================== *)

Lemma getitem_head {A : Type} (a : A) (l : list A) : getitem (a :: l) 0 = Ok a.
Proof.
  destruct (getitem_front (a :: l) 0) as (v & Hv & Hn).
  - unfold len; simpl length; lia.
  - simpl in Hn. congruence.
Qed.

Lemma consecutive_tail {A : Type} (R : A -> A -> Prop) (a : A) (l : list A) :
  consecutive R (a :: l) -> consecutive R l.
Proof. intros Hl k u v Hu Hv. apply (Hl (S k)); assumption. Qed.

Lemma consecutive_map {A B : Type} (f : A -> B) (R : B -> B -> Prop)
  (l : list A) :
  consecutive (fun a b => R (f a) (f b)) l -> consecutive R (map f l).
Proof.
  intros Hl k u v Hu Hv.
  rewrite nth_error_map in Hu, Hv.
  destruct (nth_error l k) as [a|] eqn:Ea; [|discriminate].
  destruct (nth_error l (S k)) as [b|] eqn:Eb; [|discriminate].
  simpl in Hu, Hv. injection Hu as <-. injection Hv as <-.
  eapply Hl; eauto.
Qed.

(** The differences [l[1:] - l[:-1]] inherit a property that holds of
    every pair of neighbours. *)
Lemma neighbour_differences {A B : Type} (f : A -> A -> B) (P : B -> Prop)
  (l : list A) :
  consecutive (fun a b => P (f b a)) l ->
  Forall P (map2 f (tl l) (removelast l)).
Proof.
  induction l as [|a l IH]; intros Hl; [constructor|].
  destruct l as [|b l]; [constructor|].
  change (Forall P (f b a :: map2 f (tl (b :: l)) (removelast (b :: l)))).
  constructor.
  - apply (Hl 0%nat); reflexivity.
  - apply IH. eapply consecutive_tail; eauto.
Qed.

Lemma neighbour_differences_length {A B : Type} (f : A -> A -> B)
  (l : list A) :
  length (map2 f (tl l) (removelast l)) = (length l - 1)%nat.
Proof.
  induction l as [|a l IH]; [reflexivity|].
  destruct l as [|b l]; [reflexivity|].
  change (length (f b a :: map2 f (tl (b :: l)) (removelast (b :: l)))
          = (length (a :: b :: l) - 1)%nat).
  simpl length in *. lia.
Qed.

Section Extraction.

Context {F : Type} `{Scalar F}.

(** On a non-empty crossing sequence the extraction returns: every entry
    of the series is the absolute time of its crossing minus the absolute
    time of the first one. *)
Lemma rt_extract_cons (dt : F) (c0 : crossing) (rest : list crossing) :
  let anchored c := sub (mul dt (of_int (fst c))) (mul dt (of_int (fst c0))) in
  let rts := map anchored (c0 :: rest) in
  rt_extract dt (c0 :: rest)
  = Ok (rts, map2 sub (tl rts) (removelast rts)).
Proof.
  intros anchored rts. unfold rt_extract.
  cbn [map]. rewrite getitem_head. cbn [bind].
  change (mul dt (of_int (fst c0)) :: map (fun c => mul dt (of_int (fst c))) rest)
    with (map (fun c => mul dt (of_int (fst c))) (c0 :: rest)).
  rewrite map_map. reflexivity.
Qed.

End Extraction.

(* ================================================================== *)
(** ** Indexing with an array of indices *)
(* ================================================================== *)

Lemma take_Forall2 {A : Type} (a : list A) (idx : list Z) :
  forall vs, take a idx = Ok vs <->
             Forall2 (fun i v => getitem a i = Ok v) idx vs.
Proof.
  induction idx as [|i idx IH]; intros vs; simpl.
  - split.
    + intros E. injection E as <-. constructor.
    + intros E. inversion E. reflexivity.
  - split.
    + destruct (getitem a i) as [v|e] eqn:Ei; simpl; [|discriminate].
      destruct (take a idx) as [ws|e] eqn:Et; simpl; [|discriminate].
      intros E. injection E as <-. constructor; [exact Ei|].
      apply IH. reflexivity.
    + intros E. inversion E as [|i' v idx' ws Hi Hrest]; subst.
      rewrite Hi; simpl. apply IH in Hrest. rewrite Hrest. reflexivity.
Qed.

Lemma take_in_range {A : Type} (a : list A) (idx : list Z) :
  Forall (fun i => 0 <= i < len a) idx ->
  exists vs, take a idx = Ok vs /\ length vs = length idx.
Proof.
  induction 1 as [|i idx Hi _ IH]; simpl.
  - exists []. split; reflexivity.
  - destruct (getitem_front a i Hi) as (v & Hv & _).
    destruct IH as (vs & Hvs & Hlen).
    exists (v :: vs). rewrite Hv, Hvs. simpl. split; [reflexivity | congruence].
Qed.

Lemma take_length {A : Type} (a : list A) (idx : list Z) (vs : list A) :
  take a idx = Ok vs -> length vs = length idx.
Proof.
  intros E. apply take_Forall2 in E.
  symmetry. eapply Forall2_length; eauto.
Qed.

(* ================================================================== *)
(** ** signaltonoise *)
(* ================================================================== *)

Lemma nonzero_from_bounds (mask : list bool) :
  forall i, Forall (fun k => i <= k < i + len mask) (nonzero_from i mask).
Proof.
  induction mask as [|b mask IH]; intros i; simpl; [constructor|].
  assert (Hlen : len (b :: mask) = len mask + 1)
    by (unfold len; simpl length; lia).
  pose proof (len_nonneg mask) as Hpos.
  assert (Hrest : Forall (fun k => i <= k < i + len (b :: mask))
                         (nonzero_from (i + 1) mask)).
  { eapply Forall_impl; [|apply IH]. simpl; intros k Hk. lia. }
  destruct b; [constructor; [lia|]|]; exact Hrest.
Qed.

Lemma nonzero_from_all_false (mask : list bool) :
  Forall (fun b => b = false) mask ->
  forall i, nonzero_from i mask = [].
Proof.
  induction 1 as [|b mask Hb _ IH]; intros i; simpl; [reflexivity|].
  rewrite Hb. apply IH.
Qed.

Section SignalToNoise.

Context {F : Type} `{Scalar F}.

Variable log10 : F -> F.

(** Once the power at the matched positions has been read, the function
    cannot return: the result of [np.where] is a tuple, which equals
    neither [0] nor [len(fs)], and [idx - 1] is not defined on a tuple. *)
Lemma signaltonoise_after_lookup (fs ps : list F) (f_d : F) (signal : list F) :
  take ps (nonzero_from 0 (map (fun f => eqb f f_d) fs)) = Ok signal ->
  signaltonoise log10 fs ps f_d = Raise TypeError.
Proof.
  intros Htake. unfold signaltonoise, np_where. cbn [index_by].
  rewrite Htake. reflexivity.
Qed.

(** [signaltonoise] returns on no input. *)
Lemma signaltonoise_never_returns (fs ps : list F) (f_d : F) :
  exists e, signaltonoise log10 fs ps f_d = Raise e.
Proof.
  destruct (take ps (nonzero_from 0 (map (fun f => eqb f f_d) fs)))
    as [signal|e] eqn:Htake.
  - exists TypeError. eapply signaltonoise_after_lookup; eauto.
  - exists e. unfold signaltonoise, np_where. cbn [index_by].
    rewrite Htake. reflexivity.
Qed.

End SignalToNoise.

(** C4 (the code departs from the claim): for every frequency array, every
    power array of the same length and every target frequency, wherever
    the target matches (the first and the last position included),
    [signaltonoise] raises [TypeError]: the early [return 0] is never
    reached. *)
Theorem signaltonoise_raises_type_error {F : Type} `{Scalar F}
  (log10 : F -> F) (fs ps : list F) (f_d : F) :
  length ps = length fs ->
  signaltonoise log10 fs ps f_d = Raise TypeError.
Proof.
  intros Hlen.
  destruct (take_in_range ps (nonzero_from 0 (map (fun f => eqb f f_d) fs)))
    as (signal & Htake & _).
  - eapply Forall_impl; [|apply nonzero_from_bounds].
    simpl; intros k Hk. unfold len in *. rewrite length_map in Hk. lia.
  - eapply signaltonoise_after_lookup; eauto.
Qed.

(** The target is the minimum of the frequencies, at position 0. *)
Lemma signaltonoise_raises_type_error_witness :
  signaltonoise (fun r => r) [-1; 0; 1]%float [1; 2; 3]%float (-1)%float
  = Raise TypeError.
Proof.
  apply (signaltonoise_raises_type_error (F := float)).
  reflexivity.
Defined.

(** C10 (the code departs from the claim): when the target frequency
    matches no entry of the frequencies, the lookup of the power at the
    matched positions yields the empty array and the function then raises
    [TypeError] at [idx - 1]; it does not return an empty result. *)
Theorem signaltonoise_no_match_raises {F : Type} `{Scalar F}
  (log10 : F -> F) (fs ps : list F) (f_d : F) :
  Forall (fun f => eqb f f_d = false) fs ->
  index_by ps (np_where (map (fun f => eqb f f_d) fs)) = Ok []
  /\ signaltonoise log10 fs ps f_d = Raise TypeError.
Proof.
  intros Hmiss.
  assert (Hnone : nonzero_from 0 (map (fun f => eqb f f_d) fs) = []).
  { apply nonzero_from_all_false. apply Forall_map. exact Hmiss. }
  split.
  - unfold np_where. cbn [index_by]. rewrite Hnone. reflexivity.
  - apply signaltonoise_after_lookup with (signal := []).
    rewrite Hnone. reflexivity.
Qed.

Lemma signaltonoise_no_match_raises_witness :
  index_by [1; 2; 3]%float
    (np_where (map (fun f => eqb f 5%float) [-1; 0; 1]%float)) = Ok []
  /\ signaltonoise (fun r => r) [-1; 0; 1]%float [1; 2; 3]%float 5%float
     = Raise TypeError.
Proof.
  apply (signaltonoise_no_match_raises (F := float)).
  repeat constructor.
Defined.

(* ================================================================== *)
(** ** fourier_spectrum *)
(* ================================================================== *)

Lemma range2_split_length (n : Z) :
  1 <= n ->
  length (range2 0 ((n - 1) / 2 + 1) ++ range2 (- (n / 2)) 0) = Z.to_nat n.
Proof.
  intros Hn. rewrite length_app, !range2_length.
  assert (E : 0 <= (n - 1) / 2 /\ 0 <= n / 2 /\ (n - 1) / 2 + 1 + n / 2 = n)
    by (Z.to_euclidean_division_equations; lia).
  lia.
Qed.

Lemma combine_range_snd {A : Type} (l : list A) :
  forall a, map snd (combine l (range2 a (a + len l))) = range2 a (a + len l).
Proof.
  induction l as [|v l IH]; intros a.
  - rewrite range2_empty by (unfold len; simpl; lia). reflexivity.
  - assert (Hlen : len (v :: l) = len l + 1)
      by (unfold len; simpl length; lia).
    pose proof (len_nonneg l).
    rewrite range2_cons by lia. simpl. f_equal.
    replace (a + len (v :: l)) with (a + 1 + len l) by lia.
    apply IH.
Qed.

(** Every pair [(key, position)] built by [combine keys (range n)] finds
    its key at its position. *)
Lemma combine_range_lookup {A : Type} (keys : list A) :
  forall pre : list A,
    Forall (fun p => getitem (pre ++ keys) (snd p) = Ok (fst p))
           (combine keys (range2 (len pre) (len pre + len keys))).
Proof.
  induction keys as [|k keys IH]; intros pre.
  - constructor.
  - assert (Hlen : len (k :: keys) = len keys + 1)
      by (unfold len; simpl length; lia).
    pose proof (len_nonneg keys). pose proof (len_nonneg pre).
    rewrite range2_cons by lia. simpl. constructor.
    + simpl.
      destruct (getitem_front (pre ++ k :: keys) (len pre)) as (v & Hv & Hn).
      { rewrite len_app. lia. }
      rewrite Hv. f_equal.
      replace (Z.to_nat (len pre)) with (length pre) in Hn by (unfold len; lia).
      rewrite nth_error_app2 in Hn by lia.
      rewrite Nat.sub_diag in Hn. simpl in Hn. congruence.
    + specialize (IH (pre ++ [k])).
      rewrite <- app_assoc in IH. simpl in IH.
      rewrite len_app in IH. change (len [k]) with 1 in IH.
      replace (len pre + len (k :: keys)) with (len pre + 1 + len keys) by lia.
      exact IH.
Qed.

Lemma take_pairs {A : Type} (a : list A) (pairs : list (A * Z)) :
  Forall (fun p => getitem a (snd p) = Ok (fst p)) pairs ->
  take a (map snd pairs) = Ok (map fst pairs).
Proof.
  induction 1 as [|p pairs Hp _ IH]; simpl; [reflexivity|].
  rewrite Hp; simpl. rewrite IH. reflexivity.
Qed.

Lemma StronglySorted_map_fst {A B : Type} (R : A -> A -> Prop)
  (l : list (A * B)) :
  StronglySorted (fun p q => R (fst p) (fst q)) l ->
  StronglySorted R (map fst l).
Proof.
  induction 1 as [|p l _ IH Hall]; simpl; constructor; [exact IH|].
  apply Forall_map. exact Hall.
Qed.

Section Sorting.

Context {F : Type} `{Scalar F}.

Lemma insert_key_perm (k : F) (i : Z) (l : list (F * Z)) :
  Permutation (insert_key k i l) ((k, i) :: l).
Proof.
  induction l as [|[k' i'] l IH]; simpl; [reflexivity|].
  destruct (np_lt k' k); [|reflexivity].
  rewrite IH. apply perm_swap.
Qed.

Lemma sort_keys_perm (l : list (F * Z)) : Permutation (sort_keys l) l.
Proof.
  induction l as [|p l IH]; simpl; [reflexivity|].
  rewrite insert_key_perm. destruct p; simpl. apply perm_skip. exact IH.
Qed.

(** [np.argsort] by insertion returns a rearrangement of the positions. *)
Lemma argsort_perm (keys : list F) :
  Permutation (argsort keys) (range (len keys)).
Proof.
  unfold argsort. rewrite sort_keys_perm.
  unfold range. rewrite <- (combine_range_snd keys 0) at 2. reflexivity.
Qed.

(** Reading the keys at the positions it returns gives the keys of the
    sorted pairs. *)
Lemma take_argsort (keys : list F) :
  take keys (argsort keys)
  = Ok (map fst (sort_keys (combine keys (range (len keys))))).
Proof.
  unfold argsort. apply take_pairs.
  eapply Permutation_Forall; [symmetry; apply sort_keys_perm|].
  exact (combine_range_lookup keys []).
Qed.

(** The order is a strict weak order. *)
Hypothesis np_lt_asym : forall a b : F, np_lt a b = true -> np_lt b a = false.
Hypothesis np_lt_negtrans :
  forall a b c : F, np_lt b a = false -> np_lt c b = false -> np_lt c a = false.

Lemma insert_key_sorted (k : F) (i : Z) (l : list (F * Z)) :
  StronglySorted (fun p q => np_lt (fst q) (fst p) = false) l ->
  StronglySorted (fun p q => np_lt (fst q) (fst p) = false) (insert_key k i l).
Proof.
  induction 1 as [|[k' i'] l Hl IH Hall]; simpl.
  - constructor; constructor.
  - destruct (np_lt k' k) eqn:E.
    + constructor; [exact IH|].
      rewrite (insert_key_perm k i l). constructor; [|exact Hall].
      simpl. apply np_lt_asym. exact E.
    + constructor; [constructor; assumption|].
      constructor; [exact E|].
      eapply Forall_impl; [|exact Hall].
      simpl; intros [k'' i''] Hk''; simpl in *.
      apply np_lt_negtrans with (b := k'); assumption.
Qed.

Lemma sort_keys_sorted (l : list (F * Z)) :
  StronglySorted (fun p q => np_lt (fst q) (fst p) = false) (sort_keys l).
Proof.
  induction l as [|p l IH]; simpl; [constructor|].
  apply insert_key_sorted. exact IH.
Qed.

(** Sorting by insertion meets the contract of [np.argsort]. *)
Lemma argsort_sorts : sorts argsort.
Proof.
  intros keys. split; [apply argsort_perm|].
  eexists. split; [apply take_argsort|].
  unfold ascending.
  apply (StronglySorted_map_fst (fun a b => np_lt b a = false)).
  apply sort_keys_sorted.
Qed.

End Sorting.

Section Fftfreq.

Context {F : Type} `{Scalar F}.

Lemma fftfreq_bins (n : Z) (d : interval F) (val : F) :
  bin_spacing n d = Ok val ->
  fftfreq n d
  = Ok (map (fun k => mul (of_int k) val)
            (range2 0 ((n - 1) / 2 + 1) ++ range2 (- (n / 2)) 0)).
Proof. intros Hval. unfold fftfreq. rewrite Hval. reflexivity. Qed.

(** The bin spacing is computed unless the interval is a Python number
    with [n * d == 0]. *)
Lemma bin_spacing_ok (n : Z) (d : interval F) :
  (forall v, d = PyNumber v -> eqb (mul (of_int n) v) zero = false) ->
  exists val, bin_spacing n d = Ok val.
Proof.
  intros Hd. destruct d as [v|v]; simpl.
  - rewrite (Hd v eq_refl). eexists. reflexivity.
  - eexists. reflexivity.
Qed.

Lemma fftfreq_ok (n : Z) (d : interval F) :
  1 <= n ->
  (forall v, d = PyNumber v -> eqb (mul (of_int n) v) zero = false) ->
  exists freqs, fftfreq n d = Ok freqs /\ length freqs = Z.to_nat n.
Proof.
  intros Hn Hd. destruct (bin_spacing_ok n d Hd) as (val & Hval).
  rewrite (fftfreq_bins n d val Hval).
  eexists. split; [reflexivity|].
  rewrite length_map. apply range2_split_length. exact Hn.
Qed.

End Fftfreq.

(** In binary64 the order numpy sorts by is the order of the ranks. *)
Lemma np_lt_rank (a b : float) :
  np_lt a b = true <-> lex_lt (np_rank (Prim2SF a)) (np_rank (Prim2SF b)).
Proof.
  unfold np_lt. cbn [ltb eqb float64].
  rewrite ltb_spec, !FloatAxioms.eqb_spec.
  unfold SFltb, SFeqb, lex_lt.
  destruct (Prim2SF a) as [sa | sa | | sa ma ea];
    destruct (Prim2SF b) as [sb | sb | | sb mb eb];
    try destruct sa; try destruct sb; cbn -[Z.compare Pos.compare];
    try (split; [discriminate | lia]);
    try (split; [lia | reflexivity]);
    try (split; [reflexivity | lia]).
  all: rewrite ?Pos.compare_cont_refl, ?Z.compare_refl, ?Pos.compare_refl;
    try (split; [discriminate | lia]);
    try (split; [lia | reflexivity]);
    try (split; [reflexivity | lia]).
  all: change (Pos.compare_cont Eq ma mb) with (Pos.compare ma mb);
    destruct (Z.compare_spec ea eb); destruct (Pos.compare_spec ma mb);
    cbn; split; intros; try discriminate; try reflexivity; try lia.
Qed.

Lemma lex_lt_asym (a b : Z * Z * Z) : lex_lt a b -> ~ lex_lt b a.
Proof. unfold lex_lt. lia. Qed.

Lemma lex_lt_negtrans (a b c : Z * Z * Z) :
  ~ lex_lt b a -> ~ lex_lt c b -> ~ lex_lt c a.
Proof. unfold lex_lt. lia. Qed.

Lemma np_lt_false_rank (a b : float) :
  np_lt a b = false <-> ~ lex_lt (np_rank (Prim2SF a)) (np_rank (Prim2SF b)).
Proof.
  rewrite <- np_lt_rank. destruct (np_lt a b); split; congruence.
Qed.

(** In binary64 the order numpy sorts by is a strict weak order, NaN
    included. *)
Lemma binary64_np_lt_asym (a b : float) :
  np_lt a b = true -> np_lt b a = false.
Proof.
  rewrite np_lt_rank, np_lt_false_rank. apply lex_lt_asym.
Qed.

Lemma binary64_np_lt_negtrans (a b c : float) :
  np_lt b a = false -> np_lt c b = false -> np_lt c a = false.
Proof.
  rewrite !np_lt_false_rank. apply lex_lt_negtrans.
Qed.

(** In binary64 sorting by insertion meets the contract of [np.argsort]. *)
Lemma argsort_sorts_binary64 : sorts (argsort (F := float)).
Proof.
  apply argsort_sorts.
  - exact binary64_np_lt_asym.
  - exact binary64_np_lt_negtrans.
Qed.

(** C9, as stated, fails: with the sample interval [0.0] (a Python number,
    as the default [1e-3] is) the division [1.0 / (n * d)] of
    [np.fft.fftfreq] raises [ZeroDivisionError], and so does
    [fourier_spectrum], on a signal of two samples, in binary64. *)
Lemma fourier_spectrum_zero_interval_raises :
  fourier_spectrum fft_abs_two argsort [1; 2]%float (PyNumber 0%float)
  = Raise ZeroDivisionError.
Proof. vm_compute. reflexivity. Qed.

(** C9, amended: for every non-empty signal [X] and every sample interval
    that is a numpy scalar, or a Python number [d] with [len(X) * d]
    different from 0, in every arithmetic and for every [np.argsort] that
    meets its contract (a rearrangement of the positions that puts the
    keys in ascending order, NaN last), [fourier_spectrum] returns a
    frequency array and a power array, both of the length of the signal;
    both are read off the frequency bins and the power spectrum at the
    same positions [idx], a rearrangement of [0 .. len(X)-1], so entry [i]
    of the one belongs to entry [i] of the other; and the frequencies
    returned are in ascending order. *)
Theorem fourier_spectrum_sorted_by_frequency {F : Type} `{Scalar F}
  (fft_abs_at : list F -> Z -> F) (np_argsort : list F -> list Z)
  (X : list F) (sample_freq : interval F) :
  sorts np_argsort ->
  X <> [] ->
  (forall v, sample_freq = PyNumber v ->
             eqb (mul (of_int (len X)) v) zero = false) ->
  exists (freqs : list F) (idx : list Z) (fs ps' : list F),
    fftfreq (len X) sample_freq = Ok freqs
    /\ idx = np_argsort freqs
    /\ Permutation idx (range (len X))
    /\ fourier_spectrum fft_abs_at np_argsort X sample_freq = Ok (fs, ps')
    /\ length fs = length X
    /\ length ps' = length X
    /\ Forall2 (fun i f => getitem freqs i = Ok f) idx fs
    /\ Forall2 (fun i p =>
                  getitem (map (fun k => mul (fft_abs_at X k) (fft_abs_at X k))
                               (range (len X))) i = Ok p) idx ps'
    /\ ascending fs.
Proof.
  intros Hsort HX Hd.
  assert (Hn : 1 <= len X)
    by (destruct X; [congruence | unfold len; simpl length; lia]).
  destruct (fftfreq_ok (len X) sample_freq Hn Hd) as (freqs & Hfreqs & Hlen).
  assert (Hlenf : len freqs = len X) by (unfold len in *; lia).
  destruct (Hsort freqs) as (Hperm & fs & Hfs & Hasc).
  rewrite Hlenf in Hperm.
  set (ps := map (fun k => mul (fft_abs_at X k) (fft_abs_at X k))
                 (range (len X))).
  assert (Hlenp : len ps = len X).
  { unfold ps, len, range. rewrite length_map, range2_length.
    unfold len in Hn. lia. }
  destruct (take_in_range ps (np_argsort freqs)) as (ps' & Hps & Hlenps).
  { eapply Permutation_Forall; [symmetry; exact Hperm|].
    apply Forall_forall. intros k Hk. apply range2_In in Hk. lia. }
  assert (Hidx : length (np_argsort freqs) = length X).
  { rewrite (Permutation_length Hperm). unfold range.
    rewrite range2_length. unfold len. lia. }
  exists freqs, (np_argsort freqs), fs, ps'.
  split; [exact Hfreqs|]. split; [reflexivity|]. split; [exact Hperm|].
  split.
  { unfold fourier_spectrum.
    replace (len X <? 1) with false by (symmetry; apply Z.ltb_ge; lia).
    rewrite Hfreqs. cbn [bind]. rewrite Hfs. cbn [bind].
    fold ps. rewrite Hps. reflexivity. }
  split.
  { rewrite <- Hidx. eapply take_length. exact Hfs. }
  split; [congruence|].
  split; [apply take_Forall2; exact Hfs|].
  split; [apply take_Forall2; exact Hps|].
  exact Hasc.
Qed.

(** The two-sample signal [1, 2] sampled every half time unit, in
    binary64, sorted by insertion: the frequencies [-1, 0] and the powers
    [1, 9]. *)
Lemma fourier_spectrum_sorted_by_frequency_witness :
  exists fs ps' : list float,
    fourier_spectrum fft_abs_two argsort [1; 2]%float (PyNumber 0.5%float)
    = Ok (fs, ps')
    /\ length fs = 2%nat /\ length ps' = 2%nat
    /\ ascending fs.
Proof.
  destruct (fourier_spectrum_sorted_by_frequency fft_abs_two argsort
              [1; 2]%float (PyNumber 0.5%float) argsort_sorts_binary64)
    as (freqs & idx & fs & ps' & _ & _ & _ & Hres & Hfs & Hps & _ & _ & Hsorted).
  - discriminate.
  - intros v E. injection E as <-. vm_compute. reflexivity.
  - exists fs, ps'. repeat split; assumption.
Defined.

(* ================================================================== *)
(** ** Binary64 *)
(* ================================================================== *)

(** In binary64 the constants [tol] and [dt] are the literal [1e-3]. *)
Lemma tol_dt_binary64 :
  @tol float _ = 0x1.0624dd2f1a9fcp-10%float
  /\ @dt float _ = 0x1.0624dd2f1a9fcp-10%float.
Proof. split; vm_compute; reflexivity. Qed.

(** In binary64 a finite number minus itself is [+0]. *)
Lemma binary64_sub_self (v : float) :
  PrimFloat.is_finite v = true -> PrimFloat.sub v v = 0%float.
Proof.
  intros Hfin. unfold is_finite, is_nan, is_infinity in Hfin.
  rewrite !FloatAxioms.eqb_spec, abs_spec in Hfin.
  change (Prim2SF infinity) with (S754_infinity false) in Hfin.
  apply Prim2SF_inj. rewrite sub_spec.
  change (Prim2SF 0%float) with (S754_zero false).
  destruct (Prim2SF v) as [s | s | | s m e].
  - destruct s; reflexivity.
  - destruct s; discriminate Hfin.
  - discriminate Hfin.
  - unfold SF64sub, SFsub. rewrite Z.sub_diag. reflexivity.
Qed.

(** In binary64 the time series starts at [0] exactly, provided the
    absolute time of the first crossing is finite. *)
Lemma rtseries_head_zero_binary64 (dt : float) (c0 : crossing)
  (rest : list crossing) :
  PrimFloat.is_finite (PrimFloat.mul dt (float_of_int (fst c0))) = true ->
  exists rts rtd, rt_extract dt (c0 :: rest) = Ok (0%float :: rts, rtd).
Proof.
  intros Hfin. pose proof (rt_extract_cons dt c0 rest) as E. cbv zeta in E.
  rewrite E. cbn [map]. do 2 eexists. f_equal. f_equal. f_equal.
  apply (binary64_sub_self _ Hfin).
Qed.

(* ================================================================== *)
(** ** Rounding to binary64 *)
(* ================================================================== *)

Lemma fexp_fexp64 (e : Z) : fexp prec emax e = fexp64 e.
Proof. reflexivity. Qed.

Lemma digits2_pos_size (p : positive) : digits2_pos p = Pos.size p.
Proof. induction p; simpl; congruence. Qed.

Lemma Zdigits2_log2 (V : Z) : 0 < V -> Zdigits2 V = Z.log2 V + 1.
Proof.
  destruct V as [|p|p]; try lia. intros _. simpl Zdigits2.
  rewrite digits2_pos_size.
  destruct p; simpl; lia.
Qed.

Lemma shr_1_located (M k : Z) (mrs : shr_record) :
  0 <= k -> located M k mrs -> located M (k + 1) (shr_1 mrs).
Proof.
  intros Hk. unfold located.
  rewrite Z.pow_add_r by lia. change (2 ^ 1) with 2.
  assert (HP : 0 < 2 ^ k) by (apply Z.pow_pos_nonneg; lia).
  set (P := 2 ^ k) in *.
  destruct mrs as [m r s]. cbn [shr_m shr_r shr_s].
  intros (Hm & Hrho & Hloc).
  destruct m as [|p|p]; [| |lia].
  - cbn [shr_1 shr_m shr_r shr_s]. destruct r, s; cbn [orb]; lia.
  - destruct p as [p|p|]; cbn [shr_1 shr_m shr_r shr_s].
    + rewrite Pos2Z.inj_xI in *. destruct r, s; cbn [orb]; nia.
    + rewrite Pos2Z.inj_xO in *. destruct r, s; cbn [orb]; nia.
    + destruct r, s; cbn [orb]; nia.
Qed.

Lemma iter_pos_located (p : positive) :
  forall (M k : Z) (mrs : shr_record),
    0 <= k -> located M k mrs ->
    located M (k + Z.pos p) (iter_pos shr_1 p mrs).
Proof.
  induction p as [p IH | p IH |]; intros M k mrs Hk Hloc; cbn [iter_pos].
  - replace (k + Z.pos p~1) with (k + 1 + Z.pos p + Z.pos p) by lia.
    apply IH; [lia|]. apply IH; [lia|]. apply shr_1_located; assumption.
  - replace (k + Z.pos p~0) with (k + Z.pos p + Z.pos p) by lia.
    apply IH; [lia|]. apply IH; assumption.
  - apply shr_1_located; assumption.
Qed.

(** Rounding the register to nearest even gives [rne]. *)
Lemma located_round (M k : Z) (mrs : shr_record) :
  0 <= k -> located M k mrs ->
  round_nearest_even (shr_m mrs) (loc_of_shr_record mrs) = rne M k.
Proof.
  intros Hk (Hm & Hrho & Hloc).
  assert (HP : 0 < 2 ^ k) by (apply Z.pow_pos_nonneg; lia).
  set (rho := M - shr_m mrs * 2 ^ k) in *.
  assert (Hq : M / 2 ^ k = shr_m mrs).
  { symmetry. apply (Z.div_unique M (2 ^ k) (shr_m mrs) rho); [lia|].
    unfold rho. lia. }
  assert (Hr : M mod 2 ^ k = rho).
  { symmetry. apply (Z.mod_unique M (2 ^ k) (shr_m mrs) rho); [lia|].
    unfold rho. lia. }
  unfold rne. rewrite Hq, Hr.
  destruct mrs as [m r s]. cbn [shr_m shr_r shr_s loc_of_shr_record] in *.
  destruct r, s; cbn [round_nearest_even].
  - replace (2 * rho <? 2 ^ k) with false by (symmetry; apply Z.ltb_ge; lia).
    replace (2 ^ k <? 2 * rho) with true by (symmetry; apply Z.ltb_lt; lia).
    reflexivity.
  - replace (2 * rho <? 2 ^ k) with false by (symmetry; apply Z.ltb_ge; lia).
    replace (2 ^ k <? 2 * rho) with false by (symmetry; apply Z.ltb_ge; lia).
    reflexivity.
  - replace (2 * rho <? 2 ^ k) with true by (symmetry; apply Z.ltb_lt; lia).
    reflexivity.
  - replace (2 * rho <? 2 ^ k) with true by (symmetry; apply Z.ltb_lt; lia).
    reflexivity.
Qed.

Lemma located_start (M : Z) :
  0 <= M -> located M 0 (Build_shr_record M false false).
Proof. intros HM. unfold located. cbn [shr_m shr_r shr_s]. simpl. lia. Qed.

(** The first stage of the rounding: shift by [n] places, round. *)
Lemma shr_round (M e n : Z) :
  0 <= M -> 0 <= n ->
  let '(mrs, e') := shr (shr_record_of_loc M loc_Exact) e n in
  round_nearest_even (shr_m mrs) (loc_of_shr_record mrs) = rne M n
  /\ e' = e + n.
Proof.
  intros HM Hn. cbn [shr_record_of_loc]. unfold shr.
  destruct n as [|p|p]; [| |lia].
  - split; [|lia]. apply located_round; [lia|]. apply located_start. exact HM.
  - split; [|reflexivity]. apply located_round; [lia|].
    apply (iter_pos_located p M 0); [lia|]. apply located_start. exact HM.
Qed.

Lemma ltb_scale (a b c : Z) : 0 < c -> (a * c <? b * c) = (a <? b).
Proof.
  intros Hc. destruct (Z.ltb_spec a b); [apply Z.ltb_lt | apply Z.ltb_ge]; nia.
Qed.

(** Rounding does not depend on the scale the number is written at. *)
Lemma rne_scale (M n j : Z) :
  0 <= n -> 0 <= j -> rne (M * 2 ^ j) (n + j) = rne M n.
Proof.
  intros Hn Hj. unfold rne.
  assert (HP : 0 < 2 ^ n) by (apply Z.pow_pos_nonneg; lia).
  assert (HJ : 0 < 2 ^ j) by (apply Z.pow_pos_nonneg; lia).
  rewrite Z.pow_add_r by lia.
  rewrite Z.div_mul_cancel_r by lia.
  rewrite Z.mul_mod_distr_r by lia.
  replace (2 * (M mod 2 ^ n * 2 ^ j)) with (2 * (M mod 2 ^ n) * 2 ^ j) by ring.
  rewrite !ltb_scale by lia. reflexivity.
Qed.

Lemma rne_exact (q n : Z) : 0 <= n -> rne (q * 2 ^ n) n = q.
Proof.
  intros Hn. unfold rne.
  assert (HP : 0 < 2 ^ n) by (apply Z.pow_pos_nonneg; lia).
  rewrite Z.div_mul by lia. rewrite Z.mod_mul by lia.
  replace (2 * 0 <? 2 ^ n) with true by (symmetry; apply Z.ltb_lt; lia).
  reflexivity.
Qed.

Lemma rne_bounds (M n : Z) :
  0 <= n -> M / 2 ^ n <= rne M n <= M / 2 ^ n + 1.
Proof.
  intros Hn. unfold rne.
  destruct (2 * (M mod 2 ^ n) <? 2 ^ n); [lia|].
  destruct (2 ^ n <? 2 * (M mod 2 ^ n)); [lia|].
  destruct (Z.even (M / 2 ^ n)); lia.
Qed.

(** Rounding is monotone. *)
Lemma rne_mono (M1 M2 n : Z) :
  0 <= n -> M1 <= M2 -> rne M1 n <= rne M2 n.
Proof.
  intros Hn HM.
  assert (HP : 0 < 2 ^ n) by (apply Z.pow_pos_nonneg; lia).
  assert (Hq : M1 / 2 ^ n <= M2 / 2 ^ n) by (apply Z.div_le_mono; lia).
  destruct (Z.eq_dec (M1 / 2 ^ n) (M2 / 2 ^ n)) as [E | Hne].
  - pose proof (Z.div_mod M1 (2 ^ n)) as E1.
    pose proof (Z.div_mod M2 (2 ^ n)) as E2.
    assert (Hr : M1 mod 2 ^ n <= M2 mod 2 ^ n) by (rewrite E in E1; lia).
    unfold rne. rewrite E.
    destruct (Z.ltb_spec (2 * (M1 mod 2 ^ n)) (2 ^ n));
      destruct (Z.ltb_spec (2 * (M2 mod 2 ^ n)) (2 ^ n));
      destruct (Z.ltb_spec (2 ^ n) (2 * (M1 mod 2 ^ n)));
      destruct (Z.ltb_spec (2 ^ n) (2 * (M2 mod 2 ^ n)));
      destruct (Z.even (M2 / 2 ^ n)); lia.
  - pose proof (rne_bounds M1 n Hn). pose proof (rne_bounds M2 n Hn). lia.
Qed.

Lemma rne_nonneg (M n : Z) : 0 <= n -> 0 <= M -> 0 <= rne M n.
Proof.
  intros Hn HM. pose proof (rne_bounds M n Hn).
  assert (0 <= M / 2 ^ n) by (apply Z.div_pos; [lia | apply Z.pow_pos_nonneg; lia]).
  lia.
Qed.

Lemma fexp64_ge (mag : Z) : -1074 <= fexp64 mag /\ mag - 53 <= fexp64 mag.
Proof. unfold fexp64. lia. Qed.

Lemma log2_bounds (V : Z) :
  0 < V -> 2 ^ Z.log2 V <= V < 2 ^ (Z.log2 V + 1).
Proof. intros HV. pose proof (Z.log2_spec V HV). unfold Z.succ in *. lia. Qed.

(** The quotient the rounding starts from has at most 53 bits. *)
Lemma rne_below (V n : Z) :
  0 < V -> 0 <= n -> Z.log2 V - 52 <= n -> 0 <= rne V n <= 2 ^ 53.
Proof.
  intros HV Hn Hmag. split; [apply rne_nonneg; lia|].
  pose proof (rne_bounds V n Hn) as Hb.
  pose proof (log2_bounds V HV) as [_ Hlt].
  assert (HP : 0 < 2 ^ n) by (apply Z.pow_pos_nonneg; lia).
  assert (V / 2 ^ n < 2 ^ 53); [|lia].
  apply Z.div_lt_upper_bound; [lia|].
  rewrite <- Z.pow_add_r by lia.
  eapply Z.lt_le_trans; [exact Hlt|].
  apply Z.pow_le_mono_r; lia.
Qed.

(** The second stage of the rounding: a mantissa of 54 bits is [2^53]
    and is shifted by one place. *)
Lemma shr_fexp_finish (q E : Z) :
  0 <= q <= 2 ^ 53 -> -1074 <= E ->
  (let '(mrs, e') := shr_fexp prec emax q E loc_Exact in
   match shr_m mrs with
   | 0 => S754_zero false
   | Z.pos m =>
       if e' <=? emax - prec then S754_finite false m e'
       else S754_infinity false
   | Z.neg _ => S754_nan
   end) = finish q E.
Proof.
  intros Hq HE. unfold shr_fexp, finish. rewrite fexp_fexp64.
  destruct (Z.eqb_spec q 0) as [-> | Hq0].
  - cbn [Zdigits2 shr_record_of_loc]. unfold shr.
    pose proof (fexp64_ge (0 + E)) as [_ _].
    assert (Hn : fexp64 (0 + E) - E <= 0) by (unfold fexp64; lia).
    destruct (fexp64 (0 + E) - E) as [|p|p]; try lia; reflexivity.
  - rewrite Zdigits2_log2 by lia.
    destruct (Z.ltb_spec q (2 ^ 53)) as [Hlt | Hge].
    + assert (Hlog : Z.log2 q < 53) by (apply Z.log2_lt_pow2; lia).
      assert (Hn : fexp64 (Z.log2 q + 1 + E) - E <= 0) by (unfold fexp64; lia).
      cbn [shr_record_of_loc]. unfold shr.
      destruct q as [|p|p]; try lia.
      destruct (fexp64 (Z.log2 (Z.pos p) + 1 + E) - E) as [|p'|p']; try lia;
        cbn [shr_m]; reflexivity.
    + assert (Eq : q = 2 ^ 53) by lia. subst q.
      change (Z.log2 (2 ^ 53)) with 53.
      replace (fexp64 (53 + 1 + E) - E) with 1 by (unfold fexp64; lia).
      reflexivity.
Qed.

(** Rounding the positive number [V * 2^e], written with enough bits. *)
Lemma binary_round_aux_finish (V e : Z) :
  0 < V ->
  e <= fexp64 (Z.log2 V + 1 + e) ->
  binary_round_aux prec emax false V e loc_Exact
  = finish (rne V (fexp64 (Z.log2 V + 1 + e) - e))
           (fexp64 (Z.log2 V + 1 + e)).
Proof.
  intros HV Hn. unfold binary_round_aux.
  set (n := fexp64 (Z.log2 V + 1 + e) - e).
  assert (Hshr : shr_fexp prec emax V e loc_Exact
                 = shr (shr_record_of_loc V loc_Exact) e n).
  { unfold shr_fexp. rewrite fexp_fexp64, Zdigits2_log2 by lia. reflexivity. }
  rewrite Hshr.
  pose proof (shr_round V e n ltac:(lia) ltac:(lia)) as Hr.
  destruct (shr (shr_record_of_loc V loc_Exact) e n) as [mrs e'].
  destruct Hr as [-> ->].
  replace (e + n) with (fexp64 (Z.log2 V + 1 + e)) by (unfold n; lia).
  apply shr_fexp_finish.
  - apply rne_below; [lia | lia |]. unfold n.
    pose proof (fexp64_ge (Z.log2 V + 1 + e)). lia.
  - apply fexp64_ge.
Qed.

Lemma rne_zero (n : Z) : rne 0 n = 0.
Proof.
  unfold rne. rewrite Zdiv_0_l, Zmod_0_l.
  destruct (2 * 0 <? 2 ^ n); [reflexivity|].
  assert (0 <= 2 ^ n) by (apply Z.pow_nonneg; lia).
  replace (2 ^ n <? 2 * 0) with false by (symmetry; apply Z.ltb_ge; lia).
  reflexivity.
Qed.

Lemma round64_zero (b : Z) : round64 b 0 = S754_zero false.
Proof. unfold round64. rewrite rne_zero. reflexivity. Qed.

Lemma binary_round_aux_round64 (V e b : Z) :
  0 < V -> e <= fexp64 (Z.log2 V + 1 + e) -> b <= e ->
  binary_round_aux prec emax false V e loc_Exact
  = round64 b (V * 2 ^ (e - b)).
Proof.
  intros HV Hn Hb. rewrite binary_round_aux_finish by assumption.
  unfold round64. rewrite Z.log2_mul_pow2 by lia.
  replace (e - b + Z.log2 V + 1 + b) with (Z.log2 V + 1 + e) by lia.
  set (E := fexp64 (Z.log2 V + 1 + e)) in *.
  replace (E - b) with (E - e + (e - b)) by lia.
  rewrite rne_scale by lia. reflexivity.
Qed.

Lemma iter_xO_pow (d m : positive) :
  Z.pos (Pos.iter xO m d) = Z.pos m * 2 ^ Z.pos d.
Proof.
  change (Pos.iter xO m d) with (shift_pos d m).
  rewrite shift_pos_correct, Zpower_pos_nat, Zpower_nat_Z.
  rewrite positive_nat_Z. ring.
Qed.

Lemma binary_round_round64 (m : positive) (e b : Z) :
  b <= e -> b <= -1074 ->
  binary_round prec emax false m e = round64 b (Z.pos m * 2 ^ (e - b)).
Proof.
  intros Hbe Hb. unfold binary_round, shl_align.
  rewrite fexp_fexp64.
  change (Z.pos (digits2_pos m)) with (Zdigits2 (Z.pos m)).
  rewrite Zdigits2_log2 by lia.
  set (E := fexp64 (Z.log2 (Z.pos m) + 1 + e)).
  pose proof (fexp64_ge (Z.log2 (Z.pos m) + 1 + e)) as [HE _]. fold E in HE.
  destruct (E - e) as [|d|d] eqn:Ed.
  - apply binary_round_aux_round64; [lia | fold E; lia | lia].
  - apply binary_round_aux_round64; [lia | fold E; lia | lia].
  - rewrite (binary_round_aux_round64 _ E b).
    + rewrite iter_xO_pow. rewrite <- Z.mul_assoc, <- Z.pow_add_r by lia.
      replace (Z.pos d + (E - b)) with (e - b) by lia. reflexivity.
    + lia.
    + rewrite iter_xO_pow, Z.log2_mul_pow2 by lia.
      replace (Z.pos d + Z.log2 (Z.pos m) + 1 + E)
        with (Z.log2 (Z.pos m) + 1 + e) by lia.
      fold E. lia.
    + lia.
Qed.

(** [binary_normalize] rounds the number it is given to binary64. *)
Lemma binary_normalize_round64 (V e b : Z) :
  0 <= V -> b <= e -> b <= -1074 ->
  binary_normalize prec emax V e false = round64 b (V * 2 ^ (e - b)).
Proof.
  intros HV Hbe Hb. destruct V as [|m|m]; [| |lia].
  - rewrite Z.mul_0_l, round64_zero. reflexivity.
  - apply binary_round_round64; assumption.
Qed.

Lemma finite_not_below (m1 m2 : positive) (e1 e2 : Z) :
  e1 < e2 \/ (e1 = e2 /\ Z.pos m1 <= Z.pos m2) ->
  SFltb (S754_finite false m2 e2) (S754_finite false m1 e1) = false.
Proof.
  intros Hle. unfold SFltb, SFcompare.
  change (Pos.compare_cont Eq m2 m1) with (Pos.compare m2 m1).
  destruct (Z.compare_spec e2 e1); try lia; try reflexivity.
  destruct (Pos.compare_spec m2 m1); try lia; reflexivity.
Qed.

Lemma finish_not_below_zero (q E : Z) :
  SFltb (finish q E) (S754_zero false) = false.
Proof.
  unfold finish.
  destruct (q =? 0); [reflexivity|].
  destruct (q <? 2 ^ 53);
    [destruct (E <=? 971) | destruct (E + 1 <=? 971)]; reflexivity.
Qed.

Lemma finish_mono_same (q1 q2 E : Z) :
  0 <= q1 <= q2 -> q2 <= 2 ^ 53 ->
  SFltb (finish q2 E) (finish q1 E) = false.
Proof.
  intros Hq Hq2. unfold finish at 2.
  destruct (Z.eqb_spec q1 0) as [E1 | E1]; [apply finish_not_below_zero|].
  unfold finish.
  destruct (Z.eqb_spec q2 0) as [E2 | E2]; [lia|].
  destruct (Z.ltb_spec q1 (2 ^ 53)); destruct (Z.ltb_spec q2 (2 ^ 53));
    try lia;
    destruct (Z.leb_spec E 971); destruct (Z.leb_spec (E + 1) 971);
    try lia; try reflexivity;
    apply finite_not_below; rewrite ?Z2Pos.id by lia; lia.
Qed.

Lemma finish_mono_diff (q1 q2 E1 E2 : Z) :
  E1 < E2 -> 0 <= q1 <= 2 ^ 53 -> 2 ^ 52 <= q2 <= 2 ^ 53 ->
  SFltb (finish q2 E2) (finish q1 E1) = false.
Proof.
  intros HE Hq1 Hq2. unfold finish at 2.
  destruct (Z.eqb_spec q1 0) as [E0 | E0]; [apply finish_not_below_zero|].
  unfold finish.
  destruct (Z.eqb_spec q2 0) as [E2' | E2']; [lia|].
  destruct (Z.ltb_spec q1 (2 ^ 53)); destruct (Z.ltb_spec q2 (2 ^ 53));
    destruct (Z.leb_spec E1 971); destruct (Z.leb_spec (E1 + 1) 971);
    destruct (Z.leb_spec E2 971); destruct (Z.leb_spec (E2 + 1) 971);
    try lia; try reflexivity;
    apply finite_not_below; rewrite ?Z2Pos.id by lia; lia.
Qed.

(** Rounding to binary64 is monotone. *)
Lemma round64_mono (b V1 V2 : Z) :
  b <= -1074 -> 0 <= V1 <= V2 ->
  SFltb (round64 b V2) (round64 b V1) = false.
Proof.
  intros Hb HV.
  destruct (Z.eq_dec V1 0) as [-> | HV1].
  { rewrite round64_zero. apply finish_not_below_zero. }
  unfold round64.
  set (E1 := fexp64 (Z.log2 V1 + 1 + b)).
  set (E2 := fexp64 (Z.log2 V2 + 1 + b)).
  pose proof (fexp64_ge (Z.log2 V1 + 1 + b)) as [HE1 HE1']. fold E1 in HE1, HE1'.
  pose proof (fexp64_ge (Z.log2 V2 + 1 + b)) as [HE2 HE2']. fold E2 in HE2, HE2'.
  assert (Hlog : Z.log2 V1 <= Z.log2 V2) by (apply Z.log2_le_mono; lia).
  assert (HE : E1 <= E2) by (unfold E1, E2, fexp64; lia).
  assert (Hq1 : 0 <= rne V1 (E1 - b) <= 2 ^ 53) by (apply rne_below; lia).
  assert (Hq2 : 0 <= rne V2 (E2 - b) <= 2 ^ 53) by (apply rne_below; lia).
  destruct (Z.eq_dec E1 E2) as [Eeq | Hne].
  - rewrite <- Eeq in *. apply finish_mono_same; [|lia].
    split; [lia|]. apply rne_mono; lia.
  - apply finish_mono_diff; [lia | exact Hq1 |].
    split; [|lia].
    assert (En : E2 - b = Z.log2 V2 - 52) by (unfold E2, fexp64 in *; lia).
    pose proof (rne_bounds V2 (E2 - b) ltac:(lia)) as Hb2.
    assert (2 ^ 52 <= V2 / 2 ^ (E2 - b)); [|lia].
    apply Z.div_le_lower_bound; [apply Z.pow_pos_nonneg; lia|].
    rewrite <- Z.pow_add_r by lia. rewrite En.
    replace (Z.log2 V2 - 52 + 52) with (Z.log2 V2) by lia.
    apply log2_bounds. lia.
Qed.

(** A valid finite number has a mantissa of at most 53 bits, of exactly 53
    above the least exponent. *)
Lemma valid_finite (s : bool) (m : positive) (e : Z) :
  valid_binary (S754_finite s m e) = true ->
  -1074 <= e <= 971 /\ Z.log2 (Z.pos m) <= 52
  /\ (-1074 < e -> Z.log2 (Z.pos m) = 52)
  /\ fexp64 (Z.log2 (Z.pos m) + 1 + e) = e.
Proof.
  cbn [valid_binary]. unfold bounded, canonical_mantissa.
  rewrite fexp_fexp64. intros H. apply andb_prop in H. destruct H as [Hc Hb].
  apply Z.eqb_eq in Hc. apply Z.leb_le in Hb.
  change (Z.pos (digits2_pos m)) with (Zdigits2 (Z.pos m)) in Hc.
  rewrite Zdigits2_log2 in Hc by lia.
  change (emax - prec) with 971 in Hb.
  unfold fexp64 in *. lia.
Qed.

Lemma value64_nonneg (x : spec_float) : 0 <= value64 x.
Proof.
  destruct x as [s | s | | s m e]; cbn [value64]; try lia.
  all: assert (0 <= 2 ^ (e + 2200)) by (apply Z.pow_nonneg; lia); nia.
Qed.

Lemma value64_finite_pos (s : bool) (m : positive) (e : Z) :
  -2200 <= e -> 0 < value64 (S754_finite s m e).
Proof.
  intros He. cbn [value64].
  assert (0 < 2 ^ (e + 2200)) by (apply Z.pow_pos_nonneg; lia). nia.
Qed.

(** A valid number that is not above another one has no larger value. *)
Lemma value64_le (x y : spec_float) :
  valid_binary x = true -> valid_binary y = true ->
  nonneg_finite x = true -> nonneg_finite y = true ->
  SFltb y x = false -> value64 x <= value64 y.
Proof.
  intros Vx Vy Nx Ny Hle.
  destruct x as [sx | sx | | sx mx ex]; try discriminate Nx;
    [apply value64_nonneg|].
  destruct sx; [discriminate Nx|].
  destruct y as [sy | sy | | sy my ey]; try discriminate Ny;
    [destruct sy; discriminate Hle|].
  destruct sy; [discriminate Ny|].
  destruct (valid_finite _ _ _ Vx) as (Hex & Hmx & Hnx & _).
  destruct (valid_finite _ _ _ Vy) as (Hey & Hmy & Hny & _).
  unfold SFltb, SFcompare in Hle.
  change (Pos.compare_cont Eq my mx) with (Pos.compare my mx) in Hle.
  cbn [value64].
  destruct (Z.compare_spec ey ex) as [E | Hlt | Hgt]; [| discriminate Hle |].
  - subst ey. destruct (Pos.compare_spec my mx); try discriminate Hle.
    + subst. lia.
    + apply Z.mul_le_mono_nonneg_r; [apply Z.pow_nonneg; lia | lia].
  - pose proof (log2_bounds (Z.pos mx) ltac:(lia)) as [_ Hux].
    pose proof (log2_bounds (Z.pos my) ltac:(lia)) as [Hly _].
    rewrite (Hny ltac:(lia)) in Hly.
    assert (Hux' : Z.pos mx < 2 ^ 53).
    { eapply Z.lt_le_trans; [exact Hux|]. apply Z.pow_le_mono_r; lia. }
    replace (ey + 2200) with (ex + 2200 + (ey - ex)) by lia.
    rewrite (Z.pow_add_r 2 (ex + 2200) (ey - ex)) by lia.
    assert (HP : 0 < 2 ^ (ex + 2200)) by (apply Z.pow_pos_nonneg; lia).
    assert (HJ : 2 <= 2 ^ (ey - ex)).
    { change 2 with (2 ^ 1) at 1. apply Z.pow_le_mono_r; lia. }
    set (P := 2 ^ (ex + 2200)) in *. set (J := 2 ^ (ey - ex)) in *.
    apply Z.le_trans with (2 ^ 53 * P); [nia|].
    apply Z.le_trans with (2 ^ 52 * (P * 2)); [lia|].
    apply Z.le_trans with (2 ^ 52 * (P * J)); [|nia].
    apply Z.mul_le_mono_nonneg_l; [lia|]. nia.
Qed.

(** A valid finite number is the rounding of its own value. *)
Lemma round64_value64 (x : spec_float) :
  valid_binary x = true -> nonneg_finite x = true ->
  round64 (-2200) (value64 x) = x.
Proof.
  intros Vx Nx.
  destruct x as [sx | sx | | sx m e]; try discriminate Nx.
  - destruct sx; [discriminate Nx|]. apply round64_zero.
  - destruct sx; [discriminate Nx|].
    destruct (valid_finite _ _ _ Vx) as (He & Hm & _ & Hc).
    cbn [value64]. unfold round64.
    rewrite Z.log2_mul_pow2 by lia.
    replace (e + 2200 + Z.log2 (Z.pos m) + 1 + -2200)
      with (Z.log2 (Z.pos m) + 1 + e) by lia.
    rewrite Hc. replace (e - -2200) with (e + 2200) by lia.
    rewrite rne_exact by lia.
    unfold finish.
    assert (Hlt : Z.pos m < 2 ^ 53) by (apply Z.log2_lt_pow2; lia).
    replace (Z.pos m <? 2 ^ 53) with true by (symmetry; apply Z.ltb_lt; lia).
    replace (e <=? 971) with true by (symmetry; apply Z.leb_le; lia).
    reflexivity.
Qed.

(** What a rounding can be: [+0], a positive number or the positive
    infinity. *)
Lemma round64_cases (b V : Z) :
  round64 b V = S754_zero false
  \/ (exists m e, round64 b V = S754_finite false m e)
  \/ round64 b V = S754_infinity false.
Proof.
  unfold round64, finish.
  destruct (_ =? 0); [auto|].
  destruct (_ <? 2 ^ 53);
    [destruct (_ <=? 971) | destruct (_ <=? 971)]; eauto.
Qed.

(** A rounding that is not above a finite number is finite. *)
Lemma round64_finite_below (b V : Z) (y : spec_float) :
  nonneg_finite y = true -> SFltb y (round64 b V) = false ->
  nonneg_finite (round64 b V) = true.
Proof.
  intros Ny Hle.
  destruct (round64_cases b V) as [E | [(m & e & E) | E]]; rewrite E in *;
    try reflexivity.
  destruct y as [sy | sy | | sy my ey]; try discriminate Ny;
    destruct sy; discriminate.
Qed.

(* ================================================================== *)
(** ** Absolute times in binary64 *)
(* ================================================================== *)

(** The conversion of an index to binary64 rounds it. *)
Lemma float_of_int_round64 (i : Z) :
  0 <= i < 2 ^ 63 ->
  Prim2SF (float_of_int i) = round64 (-2200) (i * 2 ^ 2200).
Proof.
  intros Hi. unfold float_of_int.
  replace (i <? 0) with false by (symmetry; apply Z.ltb_ge; lia).
  rewrite of_uint63_spec, Uint63.of_Z_spec.
  rewrite Z.mod_small by (change wB with (2 ^ 63); lia).
  apply (binary_normalize_round64 i 0 (-2200)); lia.
Qed.

(** The product of a positive number and a number that is not negative
    is the rounding of the exact product. *)
Lemma SFmul_round64 (md : positive) (ed : Z) (x : spec_float) :
  valid_binary (S754_finite false md ed) = true ->
  valid_binary x = true -> nonneg_finite x = true ->
  SFmul prec emax (S754_finite false md ed) x
  = round64 (ed - 2200) (Z.pos md * value64 x).
Proof.
  intros Vd Vx Nx.
  destruct x as [sx | sx | | sx m e]; try discriminate Nx.
  - destruct sx; [discriminate Nx|].
    cbn [value64]. rewrite Z.mul_0_r, round64_zero. reflexivity.
  - destruct sx; [discriminate Nx|].
    destruct (valid_finite _ _ _ Vd) as (Hed & Hmd & Hnd & _).
    destruct (valid_finite _ _ _ Vx) as (He & Hm & Hn & _).
    cbn [SFmul xorb value64].
    change (Z.pos (md * m)) with (Z.pos md * Z.pos m).
    rewrite (binary_round_aux_round64 _ (ed + e) (ed - 2200)).
    + f_equal. replace (ed + e - (ed - 2200)) with (e + 2200) by lia. ring.
    + lia.
    + pose proof (fexp64_ge (Z.log2 (Z.pos md * Z.pos m) + 1 + (ed + e)))
        as [Hmin Hmag].
      destruct (Z.eq_dec ed (-1074)) as [Ed | Ed];
        destruct (Z.eq_dec e (-1074)) as [Ee | Ee]; try lia.
      * assert (52 <= Z.log2 (Z.pos md * Z.pos m)); [|lia].
        rewrite <- (Hn ltac:(lia)). apply Z.log2_le_mono. nia.
      * assert (52 <= Z.log2 (Z.pos md * Z.pos m)); [|lia].
        rewrite <- (Hnd ltac:(lia)). apply Z.log2_le_mono. nia.
      * assert (52 <= Z.log2 (Z.pos md * Z.pos m)); [|lia].
        rewrite <- (Hnd ltac:(lia)). apply Z.log2_le_mono. nia.
    + lia.
Qed.

Lemma shl_align_value (m : positive) (e ez : Z) :
  ez <= e -> Z.pos (fst (shl_align m e ez)) = Z.pos m * 2 ^ (e - ez).
Proof.
  intros Hle. unfold shl_align.
  destruct (ez - e) as [|d|d] eqn:Ed; cbn [fst].
  - replace (e - ez) with 0 by lia. lia.
  - lia.
  - rewrite iter_xO_pow. f_equal. f_equal. lia.
Qed.

(** The difference of two numbers that are not negative, the larger one
    first, is the rounding of the exact difference. *)
Lemma SFsub_round64 (a c : spec_float) :
  valid_binary a = true -> valid_binary c = true ->
  nonneg_finite a = true -> nonneg_finite c = true ->
  value64 c <= value64 a ->
  SFsub prec emax a c = round64 (-2200) (value64 a - value64 c).
Proof.
  intros Va Vc Na Nc Hle.
  destruct c as [sc | sc | | sc mc ec]; try discriminate Nc.
  - destruct sc; [discriminate Nc|].
    cbn [value64]. rewrite Z.sub_0_r, (round64_value64 a Va Na).
    destruct a as [sa | sa | | sa ma ea]; try discriminate Na;
      destruct sa; try discriminate Na; reflexivity.
  - destruct sc; [discriminate Nc|].
    destruct (valid_finite _ _ _ Vc) as (Hec & _).
    destruct a as [sa | sa | | sa ma ea]; try discriminate Na.
    + pose proof (value64_finite_pos false mc ec ltac:(lia)).
      cbn [value64] in *. lia.
    + destruct sa; [discriminate Na|].
      destruct (valid_finite _ _ _ Va) as (Hea & _).
      cbn [SFsub cond_Zopp value64].
      rewrite !shl_align_value by lia.
      set (ez := Z.min ea ec).
      assert (Ea : Z.pos ma * 2 ^ (ea + 2200)
                   = Z.pos ma * 2 ^ (ea - ez) * 2 ^ (ez + 2200)).
      { rewrite <- Z.mul_assoc, <- Z.pow_add_r by lia. f_equal. f_equal. lia. }
      assert (Ec : Z.pos mc * 2 ^ (ec + 2200)
                   = Z.pos mc * 2 ^ (ec - ez) * 2 ^ (ez + 2200)).
      { rewrite <- Z.mul_assoc, <- Z.pow_add_r by lia. f_equal. f_equal. lia. }
      cbn [value64] in Hle. rewrite Ea, Ec in *.
      assert (HP : 0 < 2 ^ (ez + 2200)) by (apply Z.pow_pos_nonneg; lia).
      rewrite (binary_normalize_round64 _ ez (-2200)); [|nia|lia|lia].
      f_equal. replace (ez - -2200) with (ez + 2200) by lia. ring.
Qed.

Lemma round64_nonneg (b V : Z) :
  SFleb (S754_zero false) (round64 b V) = true.
Proof.
  destruct (round64_cases b V) as [E | [(m & e & E) | E]]; rewrite E;
    reflexivity.
Qed.

(** A finite binary64 number is a zero or has a mantissa and an
    exponent. *)
Lemma is_finite_spec (v : float) :
  PrimFloat.is_finite v = true ->
  match Prim2SF v with
  | S754_zero _ | S754_finite _ _ _ => True
  | _ => False
  end.
Proof.
  unfold is_finite, is_nan, is_infinity.
  rewrite !FloatAxioms.eqb_spec, abs_spec.
  change (Prim2SF infinity) with (S754_infinity false).
  destruct (Prim2SF v) as [s | s | | s m e]; try destruct s; simpl;
    intros Hfin; try exact I; discriminate Hfin.
Qed.

Lemma float_of_int_mono (i j : Z) :
  0 <= i <= j -> j < 2 ^ 63 ->
  SFltb (Prim2SF (float_of_int j)) (Prim2SF (float_of_int i)) = false.
Proof.
  intros Hij Hj. rewrite !float_of_int_round64 by lia.
  apply round64_mono; [lia|]. split; nia.
Qed.

Lemma float_of_int_finite (i : Z) :
  0 <= i < 2 ^ 63 -> nonneg_finite (Prim2SF (float_of_int i)) = true.
Proof.
  intros Hi. rewrite float_of_int_round64 by lia.
  apply round64_finite_below with (y := Prim2SF (float_of_int (2 ^ 63 - 1))).
  - vm_compute. reflexivity.
  - rewrite <- float_of_int_round64 by lia. apply float_of_int_mono; lia.
Qed.

Section AbsoluteTimes.

(** A positive time step, small enough for the absolute time of every
    index below [2^63] to be finite. *)
Variable dt : float.
Hypothesis dt_positive : PrimFloat.ltb 0 dt = true.
Hypothesis dt_bounded :
  PrimFloat.is_finite (PrimFloat.mul dt (float_of_int (2 ^ 63 - 1))) = true.

Lemma abstime_round64 (i : Z) :
  0 <= i < 2 ^ 63 ->
  exists (md : positive) (ed : Z),
    ed <= 971
    /\ Prim2SF (PrimFloat.mul dt (float_of_int i))
       = round64 (ed - 2200)
           (Z.pos md * value64 (Prim2SF (float_of_int i))).
Proof.
  intros Hi.
  pose proof (Prim2SF_valid dt) as Vd.
  pose proof (is_finite_spec _ dt_bounded) as Hb.
  rewrite mul_spec in Hb. unfold SF64mul in Hb.
  pose proof dt_positive as Hp. rewrite ltb_spec in Hp.
  change (Prim2SF 0%float) with (S754_zero false) in Hp.
  rewrite mul_spec. unfold SF64mul.
  change (Prim2SF (float_of_int (2 ^ 63 - 1)))
    with (S754_finite false 4503599627370496 11) in Hb.
  destruct (Prim2SF dt) as [s | s | | s md ed];
    try destruct s; try discriminate Hp; try contradiction Hb.
  exists md, ed. destruct (valid_finite _ _ _ Vd) as (Hed & _).
  split; [lia|].
  apply SFmul_round64;
    [exact Vd | apply Prim2SF_valid | apply float_of_int_finite; exact Hi].
Qed.

Lemma abstime_mono (i j : Z) :
  0 <= i <= j -> j < 2 ^ 63 ->
  SFltb (Prim2SF (PrimFloat.mul dt (float_of_int j)))
        (Prim2SF (PrimFloat.mul dt (float_of_int i))) = false.
Proof.
  intros Hij Hj.
  pose proof (Prim2SF_valid dt) as Vd.
  pose proof dt_positive as Hp. rewrite ltb_spec in Hp.
  change (Prim2SF 0%float) with (S754_zero false) in Hp.
  rewrite !mul_spec. unfold SF64mul.
  pose proof (is_finite_spec _ dt_bounded) as Hb.
  rewrite mul_spec in Hb. unfold SF64mul in Hb.
  change (Prim2SF (float_of_int (2 ^ 63 - 1)))
    with (S754_finite false 4503599627370496 11) in Hb.
  destruct (Prim2SF dt) as [s | s | | s md ed];
    try destruct s; try discriminate Hp; try contradiction Hb.
  destruct (valid_finite _ _ _ Vd) as (Hed & _).
  rewrite !SFmul_round64
    by (try exact Vd; try apply Prim2SF_valid; apply float_of_int_finite; lia).
  apply round64_mono; [lia|].
  pose proof (value64_nonneg (Prim2SF (float_of_int i))).
  assert (value64 (Prim2SF (float_of_int i))
          <= value64 (Prim2SF (float_of_int j))).
  { apply value64_le; try apply Prim2SF_valid;
      try (apply float_of_int_finite; lia).
    apply float_of_int_mono; lia. }
  split; nia.
Qed.

Lemma abstime_finite (i : Z) :
  0 <= i < 2 ^ 63 ->
  nonneg_finite (Prim2SF (PrimFloat.mul dt (float_of_int i))) = true.
Proof.
  intros Hi.
  assert (Htop : nonneg_finite
                   (Prim2SF (PrimFloat.mul dt (float_of_int (2 ^ 63 - 1))))
                 = true).
  { pose proof (is_finite_spec _ dt_bounded) as Hb.
    destruct (abstime_round64 (2 ^ 63 - 1) ltac:(lia)) as (md & ed & _ & E).
    rewrite E in *.
    destruct (round64_cases (ed - 2200)
                (Z.pos md * value64 (Prim2SF (float_of_int (2 ^ 63 - 1)))))
      as [E' | [(m & e & E') | E']]; rewrite E' in *;
      try reflexivity; contradiction Hb. }
  pose proof (abstime_mono i (2 ^ 63 - 1) ltac:(lia) ltac:(lia)) as Hle.
  destruct (abstime_round64 i Hi) as (md & ed & _ & E).
  rewrite E in *.
  eapply round64_finite_below; [exact Htop | exact Hle].
Qed.

(** The entry of the time series for a crossing at index [i], the first
    crossing being at index [i0]. *)
Lemma anchored_round64 (i0 i : Z) :
  0 <= i0 <= i -> i < 2 ^ 63 ->
  value64 (Prim2SF (PrimFloat.mul dt (float_of_int i0)))
  <= value64 (Prim2SF (PrimFloat.mul dt (float_of_int i)))
  /\ Prim2SF (PrimFloat.sub (PrimFloat.mul dt (float_of_int i))
                            (PrimFloat.mul dt (float_of_int i0)))
     = round64 (-2200)
         (value64 (Prim2SF (PrimFloat.mul dt (float_of_int i)))
          - value64 (Prim2SF (PrimFloat.mul dt (float_of_int i0)))).
Proof.
  intros Hi0 Hi.
  assert (Hle : value64 (Prim2SF (PrimFloat.mul dt (float_of_int i0)))
                <= value64 (Prim2SF (PrimFloat.mul dt (float_of_int i)))).
  { apply value64_le; try apply Prim2SF_valid;
      try (apply abstime_finite; lia).
    apply abstime_mono; lia. }
  split; [exact Hle|].
  rewrite sub_spec. unfold SF64sub.
  apply SFsub_round64; try apply Prim2SF_valid;
    try (apply abstime_finite; lia).
  exact Hle.
Qed.

Lemma anchored_mono (i0 i j : Z) :
  0 <= i0 <= i -> i <= j -> j < 2 ^ 63 ->
  SFltb (Prim2SF (PrimFloat.sub (PrimFloat.mul dt (float_of_int j))
                                (PrimFloat.mul dt (float_of_int i0))))
        (Prim2SF (PrimFloat.sub (PrimFloat.mul dt (float_of_int i))
                                (PrimFloat.mul dt (float_of_int i0))))
  = false.
Proof.
  intros Hi0 Hij Hj.
  destruct (anchored_round64 i0 i ltac:(lia) ltac:(lia)) as [Hi ->].
  destruct (anchored_round64 i0 j ltac:(lia) ltac:(lia)) as [Hj' ->].
  apply round64_mono; [lia|].
  assert (value64 (Prim2SF (PrimFloat.mul dt (float_of_int i)))
          <= value64 (Prim2SF (PrimFloat.mul dt (float_of_int j)))).
  { apply value64_le; try apply Prim2SF_valid;
      try (apply abstime_finite; lia).
    apply abstime_mono; lia. }
  lia.
Qed.

Lemma anchored_finite (i0 i : Z) :
  0 <= i0 <= i -> i < 2 ^ 63 ->
  nonneg_finite
    (Prim2SF (PrimFloat.sub (PrimFloat.mul dt (float_of_int i))
                            (PrimFloat.mul dt (float_of_int i0)))) = true.
Proof.
  intros Hi0 Hi.
  destruct (anchored_round64 i0 i Hi0 Hi) as [Hle ->].
  apply round64_finite_below
    with (y := Prim2SF (PrimFloat.mul dt (float_of_int i))).
  - apply abstime_finite. lia.
  - rewrite <- (round64_value64
                  (Prim2SF (PrimFloat.mul dt (float_of_int i)))) at 1
      by (try apply Prim2SF_valid; apply abstime_finite; lia).
    apply round64_mono; [lia|].
    pose proof (value64_nonneg
                  (Prim2SF (PrimFloat.mul dt (float_of_int i0)))).
    lia.
Qed.

(** The residence time between two crossings, the earlier one first, is
    not negative. *)
Lemma residence_nonneg (i0 i j : Z) :
  0 <= i0 <= i -> i <= j -> j < 2 ^ 63 ->
  PrimFloat.leb 0
    (PrimFloat.sub
       (PrimFloat.sub (PrimFloat.mul dt (float_of_int j))
                      (PrimFloat.mul dt (float_of_int i0)))
       (PrimFloat.sub (PrimFloat.mul dt (float_of_int i))
                      (PrimFloat.mul dt (float_of_int i0)))) = true.
Proof.
  intros Hi0 Hij Hj. rewrite leb_spec, sub_spec. unfold SF64sub.
  change (Prim2SF 0%float) with (S754_zero false).
  rewrite SFsub_round64; try apply Prim2SF_valid;
    try (apply anchored_finite; lia).
  - apply round64_nonneg.
  - apply value64_le; try apply Prim2SF_valid;
      try (apply anchored_finite; lia).
    apply anchored_mono; lia.
Qed.

End AbsoluteTimes.

(* ================================================================== *)
(** ** The time series and the distribution in binary64 *)
(* ================================================================== *)

(** C7, as stated, fails in binary64: on a signal whose crossings are at
    the indices 1 and 11 the second entry of the time series is
    [dt * 11 - dt * 1], which rounds to [0.0099999999999999985], while
    [dt * (11 - 1)] is [0.01]. *)
Lemma rtseries_entry_is_not_scaled_gap :
  residence_time late_fall 1%float
  = Ok ([(1, Plus); (11, Minus)],
        [0; 0x1.47ae147ae147ap-7]%float, [0x1.47ae147ae147ap-7]%float)
  /\ PrimFloat.mul dt (float_of_int (11 - 1)) = 0x1.47ae147ae147bp-7%float
  /\ PrimFloat.eqb 0x1.47ae147ae147ap-7 (PrimFloat.mul dt (float_of_int (11 - 1)))
     = false.
Proof. repeat split; vm_compute; reflexivity. Qed.

Lemma nonneg_finite_is_finite (v : float) :
  nonneg_finite (Prim2SF v) = true -> PrimFloat.is_finite v = true.
Proof.
  unfold is_finite, is_nan, is_infinity.
  rewrite !FloatAxioms.eqb_spec, abs_spec.
  change (Prim2SF infinity) with (S754_infinity false).
  destruct (Prim2SF v) as [s | s | | s m e]; try destruct s; simpl;
    intros Hfin; try discriminate Hfin; try reflexivity.
  unfold SFeqb, SFcompare.
  change (Pos.compare_cont Eq m m) with (Pos.compare m m).
  rewrite Z.compare_refl, Pos.compare_refl. reflexivity.
Qed.

(** C7, amended: for every non-empty crossing sequence, in every
    arithmetic, the extraction returns a time series with one entry per
    crossing, and the entry of a crossing at index [i] is
    [dt * i - dt * i_0], the absolute time [dt * i] less the absolute time
    of the first crossing (two rounded products and a rounded difference
    in binary64, not the product [dt * (i - i_0)]).  In binary64 the
    first entry is exactly [+0] whenever the absolute time [dt * i_0] of
    the first crossing is finite; it is so whenever [residence_time]
    returns on a signal of at most [2^63] samples, for every tolerance
    and every positive time step whose product with [2^63] is finite, as
    the [1e-3] of the source is. *)
Theorem rtseries_anchored_at_first_crossing :
  (forall (F : Type) (S : Scalar F) (dt : F) (c0 : crossing)
          (rest : list crossing),
      exists rts rtd : list F,
        rt_extract dt (c0 :: rest) = Ok (rts, rtd)
        /\ length rts = length (c0 :: rest)
        /\ forall (k : nat) (c : crossing),
             nth_error (c0 :: rest) k = Some c ->
             nth_error rts k
             = Some (sub (mul dt (of_int (fst c))) (mul dt (of_int (fst c0)))))
  /\ (forall (dt : float) (c0 : crossing) (rest : list crossing)
             (rts rtd : list float),
         rt_extract dt (c0 :: rest) = Ok (rts, rtd) ->
         PrimFloat.is_finite (PrimFloat.mul dt (float_of_int (fst c0))) = true ->
         nth_error rts 0 = Some 0%float)
  /\ (forall (tol dt flags : float) (x : list float) (ci : list crossing)
             (rts rtd : list float),
         PrimFloat.ltb 0 dt = true ->
         PrimFloat.is_finite (PrimFloat.mul dt (float_of_int (2 ^ 63 - 1)))
         = true ->
         len x <= 2 ^ 63 ->
         residence_time_with tol dt x flags = Ok (ci, rts, rtd) ->
         nth_error rts 0 = Some 0%float).
Proof.
  assert (Hhead : forall (dt : float) (c0 : crossing) (rest : list crossing)
                         (rts rtd : list float),
             rt_extract dt (c0 :: rest) = Ok (rts, rtd) ->
             PrimFloat.is_finite (PrimFloat.mul dt (float_of_int (fst c0)))
             = true ->
             nth_error rts 0 = Some 0%float).
  { intros dt c0 rest rts rtd Hres Hfin.
    destruct (rtseries_head_zero_binary64 dt c0 rest Hfin) as (r & d & E).
    rewrite E in Hres. injection Hres as <- _. reflexivity. }
  split; [|split; [exact Hhead|]].
  - intros F S dt c0 rest.
    pose proof (rt_extract_cons dt c0 rest) as E. cbv zeta in E.
    rewrite E. eexists. eexists. split; [reflexivity|].
    split; [apply length_map|].
    intros k c Hk. unfold crossing in *. rewrite nth_error_map, Hk.
    reflexivity.
  - intros tol dt flags x ci rts rtd Hpos Hbound Hlen Hres.
    destruct (crossing_scan_inv tol flags x)
      as (acc & Hscan & cs & -> & Hall & _).
    destruct (residence_time_crossings tol dt flags x _ ci rts rtd Hscan Hres)
      as [-> Hext].
    change (tl ((0, Star) :: cs)) with cs in Hext. destruct cs as [|c0 rest].
    + rewrite rt_extract_empty in Hext. discriminate.
    + apply (Hhead dt c0 rest rts rtd Hext).
      apply nonneg_finite_is_finite.
      apply (abstime_finite dt Hpos Hbound).
      rewrite Forall_forall in Hall.
      destruct (Hall c0 (or_introl eq_refl)) as [Hc0 _].
      simpl in Hc0. unfold crossing in *. lia.
Qed.

(** The constants of the source and the signal whose crossings are at the
    indices 1 and 11. *)
Lemma rtseries_anchored_at_first_crossing_witness :
  exists (ci : list crossing) (rts rtd : list float),
    residence_time late_fall 1%float = Ok (ci, rts, rtd)
    /\ nth_error rts 0 = Some 0%float.
Proof.
  do 3 eexists. split; [vm_compute; reflexivity|].
  destruct rtseries_anchored_at_first_crossing as (_ & _ & Hsource).
  eapply (Hsource tol dt 1%float late_fall).
  - vm_compute. reflexivity.
  - vm_compute. reflexivity.
  - vm_compute. discriminate.
  - vm_compute. reflexivity.
Defined.

(** Every crossing of an increasing sequence is at or after the first. *)
Lemma increasing_from_head (c0 : crossing) (rest : list crossing) :
  consecutive (fun a b : crossing => fst a < fst b) (c0 :: rest) ->
  forall (k : nat) (c : crossing),
    nth_error (c0 :: rest) k = Some c -> fst c0 <= fst c.
Proof.
  intros Hcons. induction k as [|k IH]; intros c Hc.
  - simpl in Hc. injection Hc as <-. lia.
  - destruct (nth_error (c0 :: rest) k) as [c'|] eqn:Ec'.
    + specialize (IH c' eq_refl). pose proof (Hcons k c' c Ec' Hc) as Hstep.
      simpl in Hstep. unfold crossing in *. lia.
    + apply nth_error_None in Ec'.
      assert (nth_error (c0 :: rest) (S k) = None)
        by (apply nth_error_None; lia).
      congruence.
Qed.

(** C8: for every signal of at most [2^63] samples (the range in which
    the model converts an index as Python does), in binary64, the
    crossing indices of the emitted sequence never decrease from one row
    to the next (they increase strictly), and every entry of the
    distribution that [residence_time] returns is at least 0 (and is not
    NaN); this holds for every tolerance and for every positive time step
    [dt] whose product with [2^63] is finite, as the [1e-3] of the source
    is. *)
Theorem crossings_chronological_distribution_nonneg (tol dt flags : float)
  (x : list float) :
  PrimFloat.ltb 0 dt = true ->
  PrimFloat.is_finite (PrimFloat.mul dt (float_of_int (2 ^ 63 - 1))) = true ->
  len x <= 2 ^ 63 ->
  exists cs : list crossing,
    crossing_scan tol flags x = Ok ((0, Star) :: cs)
    /\ consecutive (fun a b => fst a <= fst b) cs
    /\ consecutive (fun a b => fst a < fst b) cs
    /\ forall ci rts rtd,
         residence_time_with tol dt x flags = Ok (ci, rts, rtd) ->
         ci = cs /\ Forall (fun d => PrimFloat.leb 0 d = true) rtd.
Proof.
  intros Hpos Hbound Hlen.
  destruct (crossing_scan_inv tol flags x)
    as (acc & Hscan & cs & -> & Hall & Hcons).
  exists cs. split; [exact Hscan|].
  assert (Hlt : consecutive (fun a b : crossing => fst a < fst b) cs).
  { eapply consecutive_weaken; [|exact Hcons]. simpl; intros a b [Hab _]; exact Hab. }
  assert (Hle : consecutive (fun a b : crossing => fst a <= fst b) cs).
  { eapply consecutive_weaken; [|exact Hlt]. simpl; intros a b Hab; lia. }
  split; [exact Hle|]. split; [exact Hlt|].
  intros ci rts rtd Hres.
  destruct (residence_time_crossings tol dt flags x _ ci rts rtd Hscan Hres)
    as [-> Hext].
  split; [reflexivity|].
  change (tl ((0, Star) :: cs)) with cs in Hext. destruct cs as [|c0 rest].
  - rewrite rt_extract_empty in Hext. discriminate.
  - pose proof (rt_extract_cons dt c0 rest) as E. cbv zeta in E.
    rewrite E in Hext.
    match type of E with
    | _ = Ok (_, ?d) => assert (Hd : rtd = d) by congruence
    end.
    rewrite Hd.
    apply neighbour_differences. apply consecutive_map.
    intros k a b Ha Hb.
    pose proof (Hlt k a b Ha Hb) as Hab.
    pose proof (increasing_from_head c0 rest Hlt k a Ha) as H0a.
    rewrite Forall_forall in Hall.
    destruct (Hall c0 (or_introl eq_refl)) as [[H0 _] _].
    destruct (Hall b (nth_error_In _ _ Hb)) as [[_ Hb'] _].
    apply (residence_nonneg dt Hpos Hbound (fst c0) (fst a) (fst b));
      simpl in *; unfold crossing in *; lia.
Qed.

(** The constants of the source and the signal whose crossings are at the
    indices 1 and 11. *)
Lemma crossings_chronological_distribution_nonneg_witness :
  exists cs : list crossing,
    crossing_scan tol 1%float late_fall = Ok ((0, Star) :: cs)
    /\ consecutive (fun a b => fst a <= fst b) cs
    /\ consecutive (fun a b => fst a < fst b) cs
    /\ forall ci rts rtd,
         residence_time late_fall 1%float = Ok (ci, rts, rtd) ->
         ci = cs /\ Forall (fun d => PrimFloat.leb 0 d = true) rtd.
Proof.
  apply (crossings_chronological_distribution_nonneg tol dt 1%float late_fall).
  - vm_compute. reflexivity.
  - vm_compute. reflexivity.
  - vm_compute. discriminate.
Defined.

(** Of two finite numbers that are not negative, one that is not above
    the other is at most the other. *)
Lemma nonneg_finite_leb (x y : spec_float) :
  nonneg_finite x = true -> nonneg_finite y = true ->
  SFltb y x = false -> SFleb x y = true.
Proof.
  intros Nx Ny.
  destruct x as [sx | sx | | sx mx ex]; try discriminate Nx;
    destruct sx; try discriminate Nx;
    destruct y as [sy | sy | | sy my ey]; try discriminate Ny;
    destruct sy; try discriminate Ny; try (intros; reflexivity);
    try (intros H; discriminate H).
  unfold SFltb, SFleb, SFcompare.
  change (Pos.compare_cont Eq my mx) with (Pos.compare my mx).
  change (Pos.compare_cont Eq mx my) with (Pos.compare mx my).
  rewrite (Z.compare_antisym ey ex), (Pos.compare_antisym my mx).
  destruct (ey ?= ex); cbn [CompOpp]; try reflexivity; try discriminate.
  destruct (my ?= mx)%positive; cbn [CompOpp]; try reflexivity; discriminate.
Qed.

(** X14: in binary64, for every tolerance and every positive time step
    whose product with [2^63] is finite (as the [1e-3] of the source is),
    on a signal of at most [2^63] samples the time series that
    [residence_time] returns holds finite numbers that are not negative
    and never decreases from one entry to the next. *)
Theorem binary64_series_never_decreases (tol dt flags : float)
  (x : list float) (ci : list crossing) (rts rtd : list float) :
  PrimFloat.ltb 0 dt = true ->
  PrimFloat.is_finite (PrimFloat.mul dt (float_of_int (2 ^ 63 - 1))) = true ->
  len x <= 2 ^ 63 ->
  residence_time_with tol dt x flags = Ok (ci, rts, rtd) ->
  Forall (fun t => PrimFloat.is_finite t = true
                   /\ PrimFloat.leb 0 t = true) rts
  /\ consecutive (fun a b => PrimFloat.leb a b = true) rts.
Proof.
  intros Hpos Hbound Hlen Hres.
  destruct (crossing_scan_inv tol flags x)
    as (acc & Hscan & cs & -> & Hall & Hcons).
  assert (Hlt : consecutive (fun a b : crossing => fst a < fst b) cs).
  { eapply consecutive_weaken; [|exact Hcons]. simpl; intros a b [Hab _]; exact Hab. }
  destruct (residence_time_crossings tol dt flags x _ ci rts rtd Hscan Hres)
    as [-> Hext].
  change (tl ((0, Star) :: cs)) with cs in Hext. destruct cs as [|c0 rest].
  { rewrite rt_extract_empty in Hext. discriminate. }
  pose proof (rt_extract_cons dt c0 rest) as E. cbv zeta in E.
  rewrite E in Hext.
  match type of E with
  | _ = Ok (?r, _) => assert (Hr : rts = r) by congruence
  end.
  rewrite Hr. clear Hr Hext E.
  rewrite Forall_forall in Hall.
  destruct (Hall c0 (or_introl eq_refl)) as [[H0 _] _].
  assert (Hin : forall c, In c (c0 :: rest) -> 0 <= fst c0 <= fst c /\ fst c < 2 ^ 63).
  { intros c Hc. destruct (Hall c Hc) as [[_ Hc'] _].
    destruct (In_nth_error _ _ Hc) as (k & Hk).
    pose proof (increasing_from_head c0 rest Hlt k c Hk).
    simpl in *. unfold crossing in *. lia. }
  split.
  - apply Forall_map. apply Forall_forall. intros c Hc.
    specialize (Hin c Hc).
    pose proof (anchored_finite dt Hpos Hbound (fst c0) (fst c)
                  ltac:(lia) ltac:(lia)) as Hfin.
    split; [apply nonneg_finite_is_finite; exact Hfin|].
    cbn [sub mul of_int float64].
    rewrite leb_spec. change (Prim2SF 0%float) with (S754_zero false).
    apply nonneg_finite_leb; [reflexivity | exact Hfin |].
    destruct (Prim2SF _) as [s | s | | s m e]; try discriminate Hfin;
      destruct s; try discriminate Hfin; reflexivity.
  - apply consecutive_map. intros k a b Ha Hb.
    pose proof (Hlt k a b Ha Hb) as Hab.
    pose proof (Hin a (nth_error_In _ _ Ha)) as Ha'.
    pose proof (Hin b (nth_error_In _ _ Hb)) as Hb'.
    cbn [sub mul of_int float64]. rewrite leb_spec.
    apply nonneg_finite_leb;
      try (apply (anchored_finite dt Hpos Hbound); lia).
    apply (anchored_mono dt Hpos Hbound); simpl in *; unfold crossing in *; lia.
Qed.

(** The constants of the source and the signal of scenario A: the series
    [0, 0.003, 0.006]. *)
Lemma binary64_series_never_decreases_witness :
  exists (ci : list crossing) (rts rtd : list float),
    residence_time scenario_A 1%float = Ok (ci, rts, rtd)
    /\ Forall (fun t => PrimFloat.is_finite t = true
                        /\ PrimFloat.leb 0 t = true) rts
    /\ consecutive (fun a b => PrimFloat.leb a b = true) rts.
Proof.
  do 3 eexists. split; [vm_compute; reflexivity|].
  eapply (binary64_series_never_decreases tol dt 1%float scenario_A).
  - vm_compute. reflexivity.
  - vm_compute. reflexivity.
  - vm_compute. discriminate.
  - vm_compute. reflexivity.
Defined.

(* ================================================================== *)
(** ** Which samples the scan reports *)
(* ================================================================== *)

Section Candidates.

Context {F : Type} `{Scalar F}.

(** Inside the loop, one iteration is the acceptance rule applied to the
    candidate side of the sample. *)
Lemma scan_step_by_candidate (tol flags : F) (x : list F)
  (acc : list crossing) (i : Z) :
  0 <= i < len x ->
  scan_step tol flags x acc i
  = match candidate_side tol flags x i with
    | None => Ok acc
    | Some s =>
        if 1 <? len acc
        then l <- last_label acc ;;
             if label_eqb l (opposite s) then Ok (acc ++ [(i, s)]) else Ok acc
        else Ok (acc ++ [(i, s)])
    end.
Proof.
  intros Hi. unfold scan_step, candidate_side.
  destruct (getitem_front x i Hi) as (xi & Hxi & _). rewrite Hxi; simpl.
  destruct (getitem_pred x i Hi) as (xp & Hxp). rewrite Hxp.
  destruct (eqb xi zero); [reflexivity|].
  unfold and_then; simpl.
  destruct (ltb (absv (sub xi flags)) tol); simpl.
  - destruct (ltb zero (sub xi xp)); [reflexivity|].
    destruct (ltb (absv (add xi flags)) tol); simpl; [|reflexivity].
    destruct (ltb (sub xi xp) zero); reflexivity.
  - destruct (ltb (absv (add xi flags)) tol); simpl; [|reflexivity].
    destruct (ltb (sub xi xp) zero); reflexivity.
Qed.

(** A candidate is within tolerance of the threshold of its side, differs
    from 0, and lies on the matching side of its predecessor. *)
Lemma candidate_side_tests (tol flags : F) (x : list F) (i : Z) (s : label) :
  candidate_side tol flags x i = Some s ->
  exists xi xp,
    getitem x i = Ok xi /\ getitem x (i - 1) = Ok xp
    /\ eqb xi zero = false
    /\ (s = Plus /\ ltb (absv (sub xi flags)) tol = true
                 /\ ltb zero (sub xi xp) = true
        \/ s = Minus /\ ltb (absv (add xi flags)) tol = true
                     /\ ltb (sub xi xp) zero = true).
Proof.
  unfold candidate_side.
  destruct (getitem x i) as [xi|]; [|discriminate].
  destruct (getitem x (i - 1)) as [xp|]; [|discriminate].
  destruct (eqb xi zero) eqn:Ez; [discriminate|].
  destruct (ltb (absv (sub xi flags)) tol && ltb zero (sub xi xp)) eqn:Eup.
  - intros E; injection E as <-. apply andb_true_iff in Eup.
    exists xi, xp. do 3 (split; [first [reflexivity | assumption]|]). left. tauto.
  - destruct (ltb (absv (add xi flags)) tol && ltb (sub xi xp) zero) eqn:Edn;
      [|discriminate].
    intros E; injection E as <-. apply andb_true_iff in Edn.
    exists xi, xp. do 3 (split; [first [reflexivity | assumption]|]). right. tauto.
Qed.

End Candidates.

Section Reports.

Context {F : Type} `{Scalar F}.

Lemma candidate_side_is_side (tol flags : F) (x : list F) (i : Z) (s : label) :
  candidate_side tol flags x i = Some s -> is_side s.
Proof.
  intros Hc. destruct (candidate_side_tests tol flags x i s Hc)
    as (_ & _ & _ & _ & _ & [[-> _] | [-> _]]); [left | right]; reflexivity.
Qed.

Lemma opposite_involutive (s : label) : opposite (opposite s) = s.
Proof. destruct s; reflexivity. Qed.

(** The last row of the accumulator is the last accepted row, when there
    is one. *)
Lemma last_label_accepted (c : crossing) (cs : list crossing) :
  exists row, nth_error (c :: cs) (length (c :: cs) - 1) = Some row
              /\ last_label ((0, Star) :: c :: cs) = Ok (snd row).
Proof.
  destruct (last_label_spec ((0, Star) :: c :: cs)) as (row & Hrow & Hl);
    [discriminate|].
  exists row. split; [|exact Hl].
  simpl in Hrow |- *. unfold crossing in *.
  rewrite Nat.sub_0_r. exact Hrow.
Qed.

Lemma report_inv_step (tol flags : F) (x : list F) (acc : list crossing)
  (i : Z) :
  0 <= i < len x ->
  report_inv tol flags x i acc ->
  exists acc', scan_step tol flags x acc i = Ok acc'
               /\ report_inv tol flags x (i + 1) acc'.
Proof.
  intros Hi (cs & -> & Hall & Hfirst & Hnone & Hcons & Hlast).
  rewrite scan_step_by_candidate by exact Hi.
  assert (Hwiden :
    Forall (fun c => 0 <= fst c < i + 1
                     /\ candidate_side tol flags x (fst c) = Some (snd c)) cs).
  { eapply Forall_impl; [|exact Hall]. simpl; intros c [Hc Hc']. split; [lia|auto]. }
  destruct (candidate_side tol flags x i) as [s|] eqn:Ecand.
  - (* the sample at [i] is a candidate of side [s] *)
    pose proof (candidate_side_is_side tol flags x i s Ecand) as Hs.
    destruct cs as [|c cs'].
    + (* first accepted row *)
      simpl. eexists. split; [reflexivity|].
      exists [(i, s)]. split; [reflexivity|]. split.
      { constructor; [|constructor]. simpl. split; [lia|exact Ecand]. }
      split.
      { intros c Hc. simpl in Hc. injection Hc as <-. simpl.
        intros k Hk. apply Hnone; [reflexivity | lia]. }
      split; [discriminate|]. split; [apply consecutive_one|].
      intros c Hc. simpl in Hc. injection Hc as <-. intros k Hk. simpl in Hk. lia.
    + match goal with
      | |- context [1 <? ?n] =>
          replace (1 <? n) with true
            by (symmetry; apply Z.ltb_lt; unfold len; simpl length; lia)
      end.
      destruct (last_label_accepted c cs') as (row & Hrow & Hl).
      rewrite Hl. cbn [bind].
      assert (Hrow_in : In row (c :: cs')) by (eapply nth_error_In; eauto).
      rewrite Forall_forall in Hall. destruct (Hall row Hrow_in) as [Hrow_lt Hrow_c].
      pose proof (candidate_side_is_side tol flags x _ _ Hrow_c) as Hrow_s.
      destruct (label_eqb (snd row) (opposite s)) eqn:El.
      * (* the last row is on the other side: the candidate is accepted *)
        apply label_eqb_eq in El.
        eexists. split; [reflexivity|].
        exists ((c :: cs') ++ [(i, s)]). split; [reflexivity|]. split.
        { apply Forall_app. split; [exact Hwiden|].
          constructor; [|constructor]. simpl. split; [lia|exact Ecand]. }
        split; [exact Hfirst|]. split; [discriminate|]. split.
        { apply consecutive_snoc; [exact Hcons|].
          intros a Ha. simpl. unfold crossing in *.
          assert (a = row) by congruence. subst a.
          rewrite El, opposite_involutive. split; [reflexivity|].
          pose proof (Hlast row Hrow) as Hgap.
          rewrite El, opposite_involutive in Hgap. exact Hgap. }
        intros c0 Hc0.
        assert (E : (length ((c :: cs') ++ [(i, s)]) - 1
                     = length (c :: cs'))%nat)
          by (rewrite length_app; simpl; lia).
        rewrite E in Hc0. rewrite nth_error_app2 in Hc0 by lia.
        rewrite Nat.sub_diag in Hc0.
        simpl in Hc0. injection Hc0 as <-. intros k Hk. simpl in Hk. lia.
      * (* the last row is on the same side: the candidate is dropped *)
        eexists. split; [reflexivity|].
        exists (c :: cs'). split; [reflexivity|]. split; [exact Hwiden|].
        split; [exact Hfirst|]. split; [discriminate|]. split; [exact Hcons|].
        intros c0 Hc0 k Hk. unfold crossing in *.
        assert (c0 = row) by congruence. subst c0.
        destruct (Z.eq_dec k i) as [-> | Hki].
        -- rewrite Ecand. intros E. injection E as ->.
           rewrite opposite_involutive in El.
           destruct (snd row); discriminate.
        -- apply (Hlast row Hrow). lia.
  - (* not a candidate *)
    eexists. split; [reflexivity|].
    exists cs. split; [reflexivity|]. split; [exact Hwiden|].
    split; [exact Hfirst|]. split.
    { intros Hnil k Hk. destruct (Z.eq_dec k i) as [-> | Hki]; [exact Ecand|].
      apply Hnone; [exact Hnil | lia]. }
    split; [exact Hcons|].
    intros c Hc k Hk. destruct (Z.eq_dec k i) as [-> | Hki].
    + rewrite Ecand. discriminate.
    + apply (Hlast c Hc). lia.
Qed.

Lemma crossing_scan_report_inv (tol flags : F) (x : list F) :
  exists acc, crossing_scan tol flags x = Ok acc
              /\ report_inv tol flags x (len x) acc.
Proof.
  unfold crossing_scan, range.
  apply (for_each_range_inv (scan_step tol flags x) (report_inv tol flags x)
           (Z.to_nat (len x - 0))); try reflexivity.
  - apply len_nonneg.
  - exists []. split; [reflexivity|]. split; [constructor|].
    split; [intros c Hc; discriminate|].
    split; [intros _ k Hk; lia|].
    split; [apply consecutive_nil|]. intros c Hc; discriminate.
  - intros i acc Hi Hinv. apply report_inv_step; assumption.
Qed.

End Reports.

Section Outcome.

Context {F : Type} `{Scalar F}.

(** With at least one accepted row the function returns. *)
Lemma residence_time_some_crossing (tol dt flags : F) (x : list F)
  (c0 : crossing) (rest : list crossing) :
  crossing_scan tol flags x = Ok ((0, Star) :: c0 :: rest) ->
  exists rts rtd,
    residence_time_with tol dt x flags = Ok (c0 :: rest, rts, rtd)
    /\ rt_extract dt (c0 :: rest) = Ok (rts, rtd).
Proof.
  intros Hscan. unfold residence_time_with. rewrite Hscan. cbn [bind tl].
  pose proof (rt_extract_cons dt c0 rest) as E. cbv zeta in E.
  rewrite E. cbn [bind fst snd]. eexists. eexists. split; reflexivity.
Qed.

End Outcome.

(** X1: for every signal, [residence_time] raises [IndexError] when the
    scan accepted no crossing and returns otherwise, and it raises nothing
    else; when it returns, the time series has one entry per crossing and
    the distribution one entry fewer. *)
Theorem residence_time_returns_iff_crossing {F : Type} `{Scalar F}
  (tol dt flags : F) (x : list F) :
  exists cs : list crossing,
    crossing_scan tol flags x = Ok ((0, Star) :: cs)
    /\ (cs = [] -> residence_time_with tol dt x flags = Raise IndexError)
    /\ (cs <> [] ->
        exists rts rtd,
          residence_time_with tol dt x flags = Ok (cs, rts, rtd)
          /\ length rts = length cs
          /\ S (length rtd) = length cs).
Proof.
  destruct (crossing_scan_inv tol flags x) as (acc & Hscan & cs & -> & _).
  exists cs. split; [exact Hscan|]. split.
  - intros ->. apply residence_time_no_crossing. exact Hscan.
  - intros Hne. destruct cs as [|c0 rest]; [congruence|].
    destruct (residence_time_some_crossing tol dt flags x c0 rest Hscan)
      as (rts & rtd & Hres & Hext).
    exists rts, rtd. split; [exact Hres|].
    pose proof (rt_extract_cons dt c0 rest) as E. cbv zeta in E.
    rewrite E in Hext.
    match type of E with
    | _ = Ok (?r, ?d) =>
        assert (Hr : rts = r) by congruence;
        assert (Hd : rtd = d) by congruence
    end.
    rewrite Hd, Hr.
    split; [apply length_map|].
    rewrite neighbour_differences_length, length_map. unfold crossing. simpl length. lia.
Qed.

(** X2: every crossing the scan reports lies at an index of the signal,
    at a sample that is not 0, is within the tolerance of the threshold of
    its side ([+flags] for a Positive, [-flags] for a Negative crossing)
    and is above (Positive) or below (Negative) the sample read as its
    predecessor. *)
Theorem reported_crossings_pass_the_test {F : Type} `{Scalar F}
  (tol flags : F) (x : list F) :
  exists cs : list crossing,
    crossing_scan tol flags x = Ok ((0, Star) :: cs)
    /\ Forall (fun c =>
         0 <= fst c < len x
         /\ exists xi xp,
              getitem x (fst c) = Ok xi /\ getitem x (fst c - 1) = Ok xp
              /\ eqb xi zero = false
              /\ (snd c = Plus /\ ltb (absv (sub xi flags)) tol = true
                               /\ ltb zero (sub xi xp) = true
                  \/ snd c = Minus /\ ltb (absv (add xi flags)) tol = true
                                   /\ ltb (sub xi xp) zero = true)) cs.
Proof.
  destruct (crossing_scan_report_inv tol flags x)
    as (acc & Hscan & cs & -> & Hall & _).
  exists cs. split; [exact Hscan|].
  eapply Forall_impl; [|exact Hall]. simpl. intros c [Hc Hcand].
  split; [exact Hc|]. apply candidate_side_tests. exact Hcand.
Qed.

(** X3: the scan reports no crossing exactly when no sample of the signal
    is a candidate, which is exactly when [residence_time] raises
    [IndexError]; and the first crossing reported is the earliest
    candidate of the signal. *)
Theorem first_crossing_is_earliest_candidate {F : Type} `{Scalar F}
  (tol dt flags : F) (x : list F) :
  exists cs : list crossing,
    crossing_scan tol flags x = Ok ((0, Star) :: cs)
    /\ (cs = [] <->
        forall k, 0 <= k < len x -> candidate_side tol flags x k = None)
    /\ (cs = [] <-> residence_time_with tol dt x flags = Raise IndexError)
    /\ (forall c rest, cs = c :: rest ->
          0 <= fst c < len x
          /\ candidate_side tol flags x (fst c) = Some (snd c)
          /\ forall k, 0 <= k < fst c -> candidate_side tol flags x k = None).
Proof.
  destruct (crossing_scan_report_inv tol flags x)
    as (acc & Hscan & cs & -> & Hall & Hfirst & Hnone & _).
  exists cs. split; [exact Hscan|]. split; [|split].
  - split; [exact Hnone|].
    intros Hno. destruct cs as [|c rest]; [reflexivity|].
    inversion Hall as [|? ? [Hc Hcand] _]; subst.
    rewrite (Hno (fst c) Hc) in Hcand. discriminate.
  - split.
    + intros ->. apply residence_time_no_crossing. exact Hscan.
    + intros Hraise. destruct cs as [|c0 rest]; [reflexivity|].
      destruct (residence_time_some_crossing tol dt flags x c0 rest Hscan)
        as (rts & rtd & Hres & _).
      rewrite Hres in Hraise. discriminate.
  - intros c rest ->. inversion Hall as [|? ? [Hc Hcand] _]; subst.
    split; [exact Hc|]. split; [exact Hcand|].
    apply (Hfirst c). reflexivity.
Qed.

(** X4: each crossing reported after the first is on the other side than
    the crossing before it and is the earliest candidate of that side
    after it: no sample strictly between the two is a candidate of that
    side; and after the last crossing reported no sample is a candidate of
    the other side. *)
Theorem next_crossing_is_earliest_opposite_candidate {F : Type} `{Scalar F}
  (tol flags : F) (x : list F) :
  exists cs : list crossing,
    crossing_scan tol flags x = Ok ((0, Star) :: cs)
    /\ consecutive (fun a b =>
         snd b = opposite (snd a)
         /\ candidate_side tol flags x (fst b) = Some (snd b)
         /\ forall k, fst a < k < fst b ->
                      candidate_side tol flags x k <> Some (snd b)) cs
    /\ (forall c, nth_error cs (length cs - 1) = Some c ->
          forall k, fst c < k < len x ->
                    candidate_side tol flags x k <> Some (opposite (snd c))).
Proof.
  destruct (crossing_scan_report_inv tol flags x)
    as (acc & Hscan & cs & -> & Hall & _ & _ & Hcons & Hlast).
  exists cs. split; [exact Hscan|]. split; [|exact Hlast].
  intros k a b Ha Hb. destruct (Hcons k a b Ha Hb) as [Hside Hgap].
  split; [exact Hside|]. split; [|exact Hgap].
  rewrite Forall_forall in Hall.
  apply (Hall b). eapply nth_error_In; eauto.
Qed.

(* ================================================================== *)
(** ** Signals of fewer than two samples *)
(* ================================================================== *)

(** In binary64 a number minus itself is [+0] or not a number, and
    compares neither above nor below 0. *)
Lemma binary64_self_difference (v : float) :
  PrimFloat.ltb 0%float (PrimFloat.sub v v) = false
  /\ PrimFloat.ltb (PrimFloat.sub v v) 0%float = false.
Proof.
  rewrite !ltb_spec, sub_spec.
  change (Prim2SF 0%float) with (S754_zero false).
  destruct (Prim2SF v) as [s | s | | s m e].
  - destruct s; split; reflexivity.
  - destruct s; split; reflexivity.
  - split; reflexivity.
  - unfold SF64sub, SFsub. rewrite Z.sub_diag. split; reflexivity.
Qed.

(** X6: a signal of fewer than two samples never yields a crossing, so
    [residence_time] raises [IndexError] on it: the only sample of a
    one-sample signal is compared with itself (the arithmetic is asked
    only that a number minus itself is neither above nor below 0, as in
    binary64 and in exact arithmetic). *)
Theorem short_signal_raises {F : Type} `{Scalar F} (tol dt flags : F)
  (x : list F) :
  (forall v : F, ltb zero (sub v v) = false /\ ltb (sub v v) zero = false) ->
  (length x <= 1)%nat ->
  residence_time_with tol dt x flags = Raise IndexError.
Proof.
  intros Hself Hlen. apply residence_time_no_crossing.
  destruct x as [|v [|w x]]; [reflexivity | | simpl in Hlen; lia].
  unfold crossing_scan. change (range (len [v])) with [0].
  cbn [for_each]. rewrite scan_step_by_candidate
    by (unfold len; simpl length; lia).
  assert (Hcand : candidate_side tol flags [v] 0 = None).
  { unfold candidate_side. change (getitem [v] 0) with (Ok v).
    change (getitem [v] (0 - 1)) with (Ok v).
    destruct (Hself v) as [-> ->]. rewrite !andb_false_r.
    destruct (eqb v zero); reflexivity. }
  rewrite Hcand. reflexivity.
Qed.

(** One sample sitting on the upper threshold, in binary64. *)
Lemma short_signal_raises_witness :
  residence_time [1%float] 1%float = Raise IndexError.
Proof.
  apply (short_signal_raises (F := float) tol dt 1%float [1%float]).
  - exact binary64_self_difference.
  - simpl. lia.
Defined.

(* ================================================================== *)
(** ** The spectrum in ascending order of frequency *)
(* ================================================================== *)

(** Two rearrangements of one list, one ordered by [R1] and one by [R2],
    are equal when [R1 a b] excludes [R2 b a]. *)
Lemma sorted_perm_unique {A : Type} (R1 R2 : A -> A -> Prop) :
  (forall a b, R1 a b -> R2 b a -> False) ->
  forall l1 l2 : list A,
    StronglySorted R1 l1 -> StronglySorted R2 l2 -> Permutation l1 l2 ->
    l1 = l2.
Proof.
  intros Hex. induction l1 as [|a l1 IH]; intros l2 H1 H2 Hperm.
  - apply Permutation_nil in Hperm. congruence.
  - destruct l2 as [|b l2].
    { apply Permutation_sym, Permutation_nil in Hperm. discriminate. }
    apply StronglySorted_inv in H1. destruct H1 as [H1 Ha].
    apply StronglySorted_inv in H2. destruct H2 as [H2 Hb].
    assert (Hab : a = b).
    { assert (Hin_a : In a (b :: l2))
        by (eapply Permutation_in; [exact Hperm | left; reflexivity]).
      assert (Hin_b : In b (a :: l1))
        by (eapply Permutation_in;
            [apply Permutation_sym; exact Hperm | left; reflexivity]).
      destruct Hin_a as [-> | Hin_a]; [reflexivity|].
      destruct Hin_b as [-> | Hin_b]; [reflexivity|].
      rewrite Forall_forall in Ha, Hb.
      exfalso. apply (Hex a b); [apply Ha | apply Hb]; assumption. }
    subst b. f_equal. apply IH; try assumption.
    eapply Permutation_cons_inv; eauto.
Qed.

Lemma combine_app_eq {A B : Type} (l1 l2 : list A) (r1 r2 : list B) :
  length l1 = length r1 ->
  combine (l1 ++ l2) (r1 ++ r2) = combine l1 r1 ++ combine l2 r2.
Proof.
  revert r1. induction l1 as [|a l1 IH]; intros [|b r1] Hlen;
    try discriminate; [reflexivity|].
  simpl. f_equal. apply IH. simpl in Hlen. lia.
Qed.

Lemma combine_fst_eq {A B : Type} (l : list A) (r : list B) :
  length l = length r -> map fst (combine l r) = l.
Proof.
  revert r. induction l as [|a l IH]; intros [|b r] Hlen;
    try discriminate; [reflexivity|].
  simpl. f_equal. apply IH. simpl in Hlen. lia.
Qed.

Lemma combine_snd_eq {A B : Type} (l : list A) (r : list B) :
  length l = length r -> map snd (combine l r) = r.
Proof.
  revert r. induction l as [|a l IH]; intros [|b r] Hlen;
    try discriminate; [reflexivity|].
  simpl. f_equal. apply IH. simpl in Hlen. lia.
Qed.

Lemma range2_app (a b c : Z) :
  a <= b <= c -> range2 a c = range2 a b ++ range2 b c.
Proof.
  intros Habc. remember (Z.to_nat (b - a)) as n eqn:En.
  revert a Habc En. induction n as [|n IH]; intros a Habc En.
  - replace b with a by lia. rewrite (range2_empty a a) by lia. reflexivity.
  - rewrite (range2_cons a c) by lia. rewrite (range2_cons a b) by lia.
    simpl. f_equal. apply IH; lia.
Qed.

Lemma range2_sorted (a b : Z) : StronglySorted Z.lt (range2 a b).
Proof.
  remember (Z.to_nat (b - a)) as n eqn:En.
  revert a En. induction n as [|n IH]; intros a En.
  - rewrite range2_empty by lia. constructor.
  - rewrite range2_cons by lia. constructor; [apply IH; lia|].
    apply Forall_forall. intros k Hk. apply range2_In in Hk. lia.
Qed.

Lemma StronglySorted_map {A B : Type} (R : A -> A -> Prop)
  (R' : B -> B -> Prop) (f : A -> B) (l : list A) :
  (forall a b, R a b -> R' (f a) (f b)) ->
  StronglySorted R l -> StronglySorted R' (map f l).
Proof.
  intros Hmono. induction 1 as [|a l _ IH Hall]; simpl; constructor;
    [exact IH|].
  apply Forall_map. eapply Forall_impl; [|exact Hall]. intros b. apply Hmono.
Qed.

Lemma StronglySorted_by_fst {A B : Type} (R : A -> A -> Prop)
  (l : list (A * B)) :
  StronglySorted R (map fst l) ->
  StronglySorted (fun p q => R (fst p) (fst q)) l.
Proof.
  induction l as [|p l IH]; intros Hs; [constructor|].
  simpl in Hs. apply StronglySorted_inv in Hs. destruct Hs as [Hs Hall].
  constructor; [apply IH; exact Hs|].
  rewrite Forall_forall in Hall |- *. intros q Hq.
  apply Hall. apply in_map. exact Hq.
Qed.

Lemma range2_nth (a b : Z) (j : nat) :
  (j < Z.to_nat (b - a))%nat ->
  nth_error (range2 a b) j = Some (a + Z.of_nat j).
Proof.
  intros Hj. unfold range2. rewrite nth_error_map, nth_error_seq.
  replace (j <? Z.to_nat (b - a))%nat with true
    by (symmetry; apply Nat.ltb_lt; exact Hj).
  reflexivity.
Qed.

(** Reading the array [[g 0, ..., g (n-1)]] at positions inside it. *)
Lemma take_map_range {A : Type} (g : Z -> A) (n : Z) (idx : list Z) :
  Forall (fun k => 0 <= k < n) idx ->
  take (map g (range n)) idx = Ok (map g idx).
Proof.
  induction 1 as [|k idx Hk _ IH]; simpl; [reflexivity|].
  assert (Hlen : len (map g (range n)) = n).
  { unfold len, range. rewrite length_map, range2_length. lia. }
  destruct (getitem_front (map g (range n)) k) as (v & Hv & Hn);
    [rewrite Hlen; exact Hk|].
  unfold range in Hn. rewrite nth_error_map, range2_nth in Hn by lia.
  replace (0 + Z.of_nat (Z.to_nat k)) with k in Hn by lia.
  simpl in Hn. rewrite Hv, IH. simpl. congruence.
Qed.

(** A list of pairs [(a[i], i)] is determined by its positions. *)
Lemma pairs_graph {A : Type} (a : list A) (dflt : A) (pairs : list (A * Z)) :
  Forall (fun p => getitem a (snd p) = Ok (fst p)) pairs ->
  pairs
  = map (fun i => (match getitem a i with Ok v => v | Raise _ => dflt end, i))
        (map snd pairs).
Proof.
  induction 1 as [|[v i] pairs Hp _ IH]; [reflexivity|].
  simpl in *. rewrite Hp. f_equal. exact IH.
Qed.

Lemma pairs_graph_perm {A : Type} (a : list A) (dflt : A)
  (p1 p2 : list (A * Z)) :
  Forall (fun p => getitem a (snd p) = Ok (fst p)) p1 ->
  Forall (fun p => getitem a (snd p) = Ok (fst p)) p2 ->
  Permutation (map snd p1) (map snd p2) ->
  Permutation p1 p2.
Proof.
  intros H1 H2 Hperm.
  rewrite (pairs_graph a dflt p1 H1), (pairs_graph a dflt p2 H2).
  apply Permutation_map. exact Hperm.
Qed.

Lemma Forall2_combine {A B : Type} (P : A -> B -> Prop) (l : list A)
  (r : list B) :
  Forall2 P l r -> Forall (fun p => P (snd p) (fst p)) (combine r l).
Proof. induction 1; simpl; constructor; assumption. Qed.

(** X8: for every non-empty signal and every sample interval for which
    the frequency bins [k * val], [val = 1.0 / (n * d)], come out strictly
    ascending in [k] from [-(n // 2)] up to [(n - 1) // 2] (in binary64:
    unless [val] is zero, negative, infinite or NaN, or two products
    round to the same number), whatever the sorting method of
    [np.argsort], [fourier_spectrum] returns these bins in this order,
    and the power spectrum rotated accordingly: first the bins
    [(n - 1) // 2 + 1 .. n - 1] of the transform (the negative
    frequencies), then the bins [0 .. (n - 1) // 2]. *)
Theorem fourier_spectrum_is_shifted_transform {F : Type} `{Scalar F}
  (fft_abs_at : list F -> Z -> F) (np_argsort : list F -> list Z)
  (X : list F) (d : interval F) (val : F) :
  sorts np_argsort ->
  X <> [] ->
  bin_spacing (len X) d = Ok val ->
  strictly_ascending
    (map (fun k => mul (of_int k) val)
         (range2 (- (len X / 2)) ((len X - 1) / 2 + 1))) ->
  fourier_spectrum fft_abs_at np_argsort X d
  = Ok (map (fun k => mul (of_int k) val)
            (range2 (- (len X / 2)) ((len X - 1) / 2 + 1)),
        map (fun k => mul (fft_abs_at X k) (fft_abs_at X k))
            (range2 ((len X - 1) / 2 + 1) (len X)
             ++ range2 0 ((len X - 1) / 2 + 1))).
Proof.
  intros Hsort HX Hval Hasc.
  assert (Hn : 1 <= len X)
    by (destruct X; [congruence | unfold len; simpl length; lia]).
  set (n := len X) in *. set (N := (n - 1) / 2 + 1) in *.
  set (m := n / 2) in *.
  assert (Hsplit : 0 <= m /\ 1 <= N /\ N + m = n)
    by (unfold N, m; Z.to_euclidean_division_equations; lia).
  set (f := fun k : Z => mul (of_int k) val) in *.
  set (g := fun k : Z => mul (fft_abs_at X k) (fft_abs_at X k)).
  set (freqs := map f (range2 0 N ++ range2 (- m) 0)).
  assert (Hfreqs : fftfreq n d = Ok freqs) by (apply fftfreq_bins; exact Hval).
  assert (Hlenf : len freqs = n).
  { unfold freqs, len. rewrite length_map, length_app, !range2_length. lia. }
  set (P1 := combine (map f (range2 0 N)) (range2 0 N)).
  set (P2 := combine (map f (range2 (- m) 0)) (range2 N n)).
  assert (Hpairs : combine freqs (range (len freqs)) = P1 ++ P2).
  { rewrite Hlenf. unfold range. rewrite (range2_app 0 N n) by lia.
    unfold freqs. rewrite map_app. apply combine_app_eq.
    rewrite length_map. reflexivity. }
  destruct (Hsort freqs) as (Hperm & vals & Hvals & Hsorted).
  assert (Hlenv : length vals = length (np_argsort freqs))
    by (eapply take_length; exact Hvals).
  assert (Hgraph : combine vals (np_argsort freqs) = P2 ++ P1).
  { apply (sorted_perm_unique
             (fun p q : F * Z => np_lt (fst q) (fst p) = false)
             (fun p q : F * Z => np_lt (fst p) (fst q) = true)).
    - intros a b Hab Hba. congruence.
    - apply (StronglySorted_by_fst (fun a b : F => np_lt b a = false)).
      rewrite combine_fst_eq by exact Hlenv. exact Hsorted.
    - apply (StronglySorted_by_fst (fun a b : F => np_lt a b = true)).
      rewrite map_app. unfold P1, P2.
      rewrite !combine_fst_eq
        by (rewrite length_map, !range2_length; lia).
      rewrite <- map_app, <- (range2_app (- m) 0 N) by lia.
      exact Hasc.
    - apply Permutation_trans with (combine freqs (range (len freqs)));
        [|rewrite Hpairs; apply Permutation_app_comm].
      apply (pairs_graph_perm freqs zero).
      + apply (Forall2_combine (fun i v => getitem freqs i = Ok v)).
        apply take_Forall2. exact Hvals.
      + exact (combine_range_lookup freqs []).
      + rewrite combine_snd_eq by exact Hlenv.
        pose proof (combine_range_snd freqs 0) as E.
        change (0 + len freqs) with (len freqs) in E.
        unfold range. unfold range in Hperm. rewrite E. exact Hperm. }
  assert (Hidx : np_argsort freqs = range2 N n ++ range2 0 N).
  { rewrite <- (combine_snd_eq vals (np_argsort freqs)) by exact Hlenv.
    rewrite Hgraph, map_app. unfold P1, P2.
    rewrite !combine_snd_eq
      by (rewrite length_map, !range2_length; lia).
    reflexivity. }
  assert (Hfs : vals = map f (range2 (- m) N)).
  { rewrite <- (combine_fst_eq vals (np_argsort freqs)) by exact Hlenv.
    rewrite Hgraph, map_app. unfold P1, P2.
    rewrite !combine_fst_eq
      by (rewrite length_map, !range2_length; lia).
    rewrite <- map_app, <- (range2_app (- m) 0 N) by lia.
    reflexivity. }
  unfold fourier_spectrum. fold n.
  replace (n <? 1) with false by (symmetry; apply Z.ltb_ge; lia).
  rewrite Hfreqs. cbn [bind]. rewrite Hvals. cbn [bind].
  rewrite Hidx.
  change (map (fun k : Z => let a := fft_abs_at X k in mul a a) (range n))
    with (map g (range n)).
  rewrite take_map_range.
  - cbn [bind]. rewrite Hfs. reflexivity.
  - apply Forall_app. split; apply Forall_forall; intros k Hk;
      apply range2_In in Hk; lia.
Qed.

(** The two-sample signal [1, 2] sampled every half time unit, in
    binary64: the bins [0, -1] come back as [-1, 0], the powers [9, 1] as
    [1, 9]. *)
Lemma fourier_spectrum_is_shifted_transform_witness :
  fourier_spectrum fft_abs_two argsort [1; 2]%float (PyNumber 0.5%float)
  = Ok ([-1; 0]%float, [1; 9]%float).
Proof.
  rewrite (fourier_spectrum_is_shifted_transform fft_abs_two argsort
             [1; 2]%float (PyNumber 0.5%float) 1%float).
  - vm_compute. reflexivity.
  - exact argsort_sorts_binary64.
  - discriminate.
  - vm_compute. reflexivity.
  - unfold strictly_ascending. vm_compute.
    repeat constructor.
Defined.

(* ================================================================== *)
(** ** signaltonoise: the exception raised *)
(* ================================================================== *)

Lemma getitem_beyond {A : Type} (a : list A) (k : Z) :
  len a <= k -> getitem a k = Raise IndexError.
Proof.
  intros Hk. pose proof (len_nonneg a). unfold getitem.
  replace (k <? 0) with false by (symmetry; apply Z.ltb_ge; lia).
  replace (k <? len a) with false by (symmetry; apply Z.ltb_ge; lia).
  rewrite andb_false_r. reflexivity.
Qed.

(** Reading at positions that are not negative succeeds when all of them
    are inside the array and raises [IndexError] otherwise. *)
Lemma take_nonneg {A : Type} (a : list A) (idx : list Z) :
  Forall (fun k => 0 <= k) idx ->
  (Forall (fun k => k < len a) idx /\ exists vs, take a idx = Ok vs)
  \/ (Exists (fun k => len a <= k) idx /\ take a idx = Raise IndexError).
Proof.
  induction 1 as [|k idx Hk _ IH]; simpl.
  - left. split; [constructor | eexists; reflexivity].
  - destruct (Z_lt_le_dec k (len a)) as [Hin | Hout].
    + destruct (getitem_front a k) as (v & Hv & _); [lia|]. rewrite Hv. simpl.
      destruct IH as [[Hall (vs & Hvs)] | [Hex Hraise]].
      * left. split; [constructor; assumption|].
        rewrite Hvs. eexists; reflexivity.
      * right. split; [apply Exists_cons_tl; exact Hex|].
        rewrite Hraise. reflexivity.
    + right. split; [apply Exists_cons_hd; exact Hout|].
      rewrite getitem_beyond by exact Hout. reflexivity.
Qed.

(** X7: [signaltonoise] returns for no input at all.  It raises
    [IndexError] when a position at which [fs] equals the target lies
    beyond the end of [ps], and [TypeError] in every other case. *)
Theorem signaltonoise_raises_on_every_input {F : Type} `{Scalar F}
  (log10 : F -> F) (fs ps : list F) (f_d : F) :
  exists e,
    signaltonoise log10 fs ps f_d = Raise e
    /\ (e = IndexError <->
        Exists (fun k => len ps <= k)
               (nonzero_from 0 (map (fun f => eqb f f_d) fs)))
    /\ (e = TypeError <->
        Forall (fun k => k < len ps)
               (nonzero_from 0 (map (fun f => eqb f f_d) fs))).
Proof.
  set (matched := nonzero_from 0 (map (fun f => eqb f f_d) fs)).
  assert (Hnonneg : Forall (fun k => 0 <= k) matched).
  { eapply Forall_impl; [|apply nonzero_from_bounds]. simpl; intros k Hk; lia. }
  destruct (take_nonneg ps matched Hnonneg)
    as [[Hall (signal & Htake)] | [Hex Hraise]].
  - exists TypeError. split.
    + eapply signaltonoise_after_lookup. exact Htake.
    + split; [|tauto]. split; [discriminate|].
      intros Hex. exfalso. apply Exists_exists in Hex.
      destruct Hex as (k & Hin & Hk). rewrite Forall_forall in Hall.
      specialize (Hall k Hin). lia.
  - exists IndexError. split.
    + unfold signaltonoise, np_where. cbn [index_by].
      fold matched. rewrite Hraise. reflexivity.
    + split; [tauto|]. split; [discriminate|].
      intros Hall. exfalso. apply Exists_exists in Hex.
      destruct Hex as (k & Hin & Hk). rewrite Forall_forall in Hall.
      specialize (Hall k Hin). lia.
Qed.

(* ================================================================== *)
(** ** The time series in binary64 *)
(* ================================================================== *)

(** X9: in binary64, whenever [residence_time] returns and the absolute
    time [dt * i_0] of the first crossing is finite, the first entry of
    the time series is exactly [+0]. *)
Theorem binary64_series_starts_at_zero (tol dt flags : float)
  (x : list float) (c0 : crossing) (rest : list crossing)
  (rts rtd : list float) :
  residence_time_with tol dt x flags = Ok (c0 :: rest, rts, rtd) ->
  PrimFloat.is_finite (PrimFloat.mul dt (float_of_int (fst c0))) = true ->
  nth_error rts 0 = Some 0%float.
Proof.
  intros Hres Hfin.
  destruct (crossing_scan tol flags x) as [acc|e] eqn:Hscan.
  - destruct (residence_time_crossings tol dt flags x acc _ rts rtd Hscan Hres)
      as [Hci Hext].
    rewrite <- Hci in Hext.
    destruct (rtseries_head_zero_binary64 dt c0 rest Hfin) as (r & d' & E).
    rewrite E in Hext. injection Hext as <- _. reflexivity.
  - unfold residence_time_with in Hres. rewrite Hscan in Hres. discriminate.
Qed.

(** Scenario A with the constants of the source. *)
Lemma binary64_series_starts_at_zero_witness :
  nth_error
    [0; 0x1.89374bc6a7efap-9; 0x1.89374bc6a7efap-8]%float 0
  = Some 0%float.
Proof.
  apply (binary64_series_starts_at_zero tol dt 1%float scenario_A
           (2, Plus) [(5, Minus); (8, Plus)]
           [0; 0x1.89374bc6a7efap-9; 0x1.89374bc6a7efap-8]%float
           [0x1.89374bc6a7efap-9; 0x1.89374bc6a7efap-9]%float).
  - vm_compute. reflexivity.
  - vm_compute. reflexivity.
Defined.

(* ================================================================== *)
(** ** The two thresholds are treated alike *)
(* ================================================================== *)

Lemma getitem_map {A B : Type} (h : A -> B) (x : list A) (k : Z) :
  getitem (map h x) k = lift h (getitem x k).
Proof.
  unfold getitem, len. rewrite length_map, nth_error_map.
  destruct ((0 <=? (if k <? 0 then Z.of_nat (length x) + k else k))
            && ((if k <? 0 then Z.of_nat (length x) + k else k)
                <? Z.of_nat (length x))); [|reflexivity].
  destruct (nth_error x _); reflexivity.
Qed.

Lemma for_each_lift {S T : Type} (body1 : S -> Z -> result S)
  (body2 : T -> Z -> result T) (h : S -> T) (idxs : list Z) :
  (forall s i, In i idxs -> body2 (h s) i = lift h (body1 s i)) ->
  forall s, for_each body2 idxs (h s) = lift h (for_each body1 idxs s).
Proof.
  induction idxs as [|i idxs IH]; intros Hstep s; [reflexivity|].
  simpl. rewrite Hstep by (left; reflexivity).
  destruct (body1 s i) as [s'|e]; simpl; [|reflexivity].
  apply IH. intros s0 j Hj. apply Hstep. right. exact Hj.
Qed.

Lemma negated_opp (x y : spec_float) : x = SFopp y -> negated x y.
Proof. intros ->. destruct y as [s | s | | s m e]; simpl; auto. Qed.

Lemma negated_abs (x y : spec_float) : negated x y -> SFabs x = SFabs y.
Proof.
  destruct x as [s | s | | s m e]; destruct y as [s' | s' | | s' m' e'];
    simpl; intros E; try reflexivity; try discriminate E;
    injection E; intros; subst; reflexivity.
Qed.

Lemma negated_compare (x y : spec_float) :
  negated x y ->
  SFltb (S754_zero false) x = SFltb y (S754_zero false)
  /\ SFltb x (S754_zero false) = SFltb (S754_zero false) y.
Proof.
  destruct x as [s | s | | s m e]; destruct y as [s' | s' | | s' m' e'];
    simpl; intros E; try (split; reflexivity); try discriminate E;
    injection E; intros; subst; destruct s'; split; reflexivity.
Qed.

Lemma binary_round_aux_opp (s : bool) (m e : Z) (l : location) :
  binary_round_aux prec emax (negb s) m e l
  = SFopp (binary_round_aux prec emax s m e l).
Proof.
  unfold binary_round_aux.
  destruct (shr_fexp prec emax m e l) as [mrs' e'].
  destruct (shr_fexp prec emax _ e' loc_Exact) as [mrs'' e''].
  destruct (shr_m mrs''); [reflexivity | | reflexivity].
  destruct (e'' <=? emax - prec); reflexivity.
Qed.

Lemma binary_round_opp (s : bool) (m : positive) (e : Z) :
  binary_round prec emax (negb s) m e = SFopp (binary_round prec emax s m e).
Proof.
  unfold binary_round.
  destruct (shl_align m e _) as [mz ez]. apply binary_round_aux_opp.
Qed.

Lemma binary_normalize_opp (z e : Z) :
  negated (binary_normalize prec emax (- z) e false)
          (binary_normalize prec emax z e false).
Proof.
  destruct z as [|p|p]; simpl.
  - exact I.
  - apply negated_opp. apply (binary_round_opp false).
  - apply negated_opp. rewrite (binary_round_opp false).
    destruct (binary_round prec emax false p e) as [s | s | | s m' e'];
      simpl; rewrite ?negb_involutive; reflexivity.
Qed.

(** In binary64, [(-a) + (-b)] is [-(a + b)]. *)
Lemma SFadd_opp (a b : spec_float) :
  negated (SFadd prec emax (SFopp a) (SFopp b)) (SFadd prec emax a b).
Proof.
  destruct a as [sa | sa | | sa ma ea]; destruct b as [sb | sb | | sb mb eb];
    try (destruct sa, sb; simpl; auto; fail);
    try (destruct sa; simpl; auto; fail);
    try (destruct sb; simpl; auto; fail);
    try (simpl; auto; fail).
  unfold SFopp, SFadd.
  match goal with
  | |- negated (binary_normalize _ _ ?u _ _) (binary_normalize _ _ ?v _ _) =>
      replace u with (- v); [apply binary_normalize_opp|]
  end.
  generalize (Z.pos (fst (shl_align ma ea (Z.min ea eb)))).
  generalize (Z.pos (fst (shl_align mb eb (Z.min ea eb)))).
  intros u v. destruct sa, sb; cbn [negb cond_Zopp]; lia.
Qed.

Lemma SFsub_add_opp (a b : spec_float) :
  SFsub prec emax a b = SFadd prec emax a (SFopp b).
Proof.
  destruct a as [sa | sa | | sa ma ea]; destruct b as [sb | sb | | sb mb eb];
    try (destruct sa, sb; reflexivity);
    try (destruct sa; reflexivity);
    try (destruct sb; reflexivity);
    reflexivity.
Qed.

Lemma SFopp_involutive (a : spec_float) : SFopp (SFopp a) = a.
Proof. destruct a; simpl; rewrite ?negb_involutive; reflexivity. Qed.

Lemma binary64_negated_zero (v : float) :
  PrimFloat.eqb (- v) 0 = PrimFloat.eqb v 0.
Proof.
  rewrite !FloatAxioms.eqb_spec, opp_spec.
  destruct (Prim2SF v) as [s | s | | s m e]; try destruct s; reflexivity.
Qed.

Lemma binary64_abs_negated_sum (v f : float) :
  PrimFloat.abs (- v - f) = PrimFloat.abs (v + f).
Proof.
  apply Prim2SF_inj. rewrite !abs_spec, sub_spec, add_spec, opp_spec.
  apply negated_abs. unfold SF64sub, SF64add. rewrite SFsub_add_opp.
  apply SFadd_opp.
Qed.

Lemma binary64_abs_negated_difference (v f : float) :
  PrimFloat.abs (- v + f) = PrimFloat.abs (v - f).
Proof.
  apply Prim2SF_inj. rewrite !abs_spec, sub_spec, add_spec, opp_spec.
  apply negated_abs. unfold SF64sub, SF64add. rewrite SFsub_add_opp.
  rewrite <- (SFopp_involutive (Prim2SF f)) at 1.
  apply SFadd_opp.
Qed.

Lemma binary64_negated_step (v p : float) :
  PrimFloat.ltb 0 (- v - - p) = PrimFloat.ltb (v - p) 0
  /\ PrimFloat.ltb (- v - - p) 0 = PrimFloat.ltb 0 (v - p).
Proof.
  rewrite !ltb_spec, !sub_spec, !opp_spec.
  change (Prim2SF 0%float) with (S754_zero false).
  apply negated_compare. unfold SF64sub. rewrite !SFsub_add_opp.
  apply SFadd_opp.
Qed.

Lemma binary64_above_not_below (z : float) :
  PrimFloat.ltb 0 z = true -> PrimFloat.ltb z 0 = false.
Proof.
  rewrite !ltb_spec. change (Prim2SF 0%float) with (S754_zero false).
  destruct (Prim2SF z) as [s | s | | s m e]; try destruct s;
    unfold SFltb, SFcompare; congruence.
Qed.

(** In binary64, negating the signal turns every Positive candidate into a
    Negative one at the same index, and conversely. *)
Lemma candidate_side_negated (tol flags : float) (x : list float) (i : Z) :
  candidate_side tol flags (map PrimFloat.opp x) i
  = option_map opposite (candidate_side tol flags x i).
Proof.
  unfold candidate_side. rewrite !getitem_map.
  destruct (getitem x i) as [xi|]; [|reflexivity].
  destruct (getitem x (i - 1)) as [xp|]; [|reflexivity].
  cbn [lift]. cbn [eqb ltb absv sub add zero float64].
  rewrite binary64_negated_zero, binary64_abs_negated_sum,
    binary64_abs_negated_difference.
  destruct (binary64_negated_step xi xp) as [-> ->].
  pose proof (binary64_above_not_below (xi - xp)) as Hexcl.
  destruct (PrimFloat.eqb xi 0); [reflexivity|].
  destruct (PrimFloat.ltb (PrimFloat.abs (xi - flags)) tol),
    (PrimFloat.ltb (PrimFloat.abs (xi + flags)) tol),
    (PrimFloat.ltb 0 (xi - xp)) eqn:E1, (PrimFloat.ltb (xi - xp) 0) eqn:E2;
    try reflexivity; specialize (Hexcl eq_refl); discriminate.
Qed.

Lemma flip_sides_snoc (acc : list crossing) (i : Z) (s : label) :
  flip_sides (acc ++ [(i, s)]) = flip_sides acc ++ [(i, opposite s)].
Proof. unfold flip_sides. rewrite map_app. reflexivity. Qed.

Lemma last_label_flipped (acc : list crossing) :
  last_label (flip_sides acc) = lift opposite (last_label acc).
Proof.
  unfold last_label, flip_sides. rewrite getitem_map.
  assert (Hany : forall r : result (Z * label),
             (row <- lift (fun c => (fst c, opposite (snd c))) r ;;
              Ok (snd row))
             = lift opposite (row <- r ;; Ok (snd row)))
    by (intros [row|e]; reflexivity).
  apply Hany.
Qed.

Lemma scan_step_negated (tol flags : float) (x : list float)
  (acc : list crossing) (i : Z) :
  0 <= i < len x ->
  scan_step tol flags (map PrimFloat.opp x) (flip_sides acc) i
  = lift flip_sides (scan_step tol flags x acc i).
Proof.
  intros Hi.
  rewrite (scan_step_by_candidate tol flags (map PrimFloat.opp x))
    by (unfold len in *; rewrite length_map; exact Hi).
  rewrite (scan_step_by_candidate tol flags x) by exact Hi.
  rewrite candidate_side_negated.
  destruct (candidate_side tol flags x i) as [s|]; simpl; [|reflexivity].
  replace (len (flip_sides acc)) with (len acc)
    by (unfold len, flip_sides; rewrite length_map; reflexivity).
  destruct (1 <? len acc).
  - rewrite last_label_flipped.
    destruct (last_label acc) as [l|e]; simpl; [|reflexivity].
    replace (label_eqb (opposite l) (opposite (opposite s)))
      with (label_eqb l (opposite s)) by (destruct l, s; reflexivity).
    destruct (label_eqb l (opposite s)); simpl; [|reflexivity].
    rewrite flip_sides_snoc. reflexivity.
  - simpl. rewrite flip_sides_snoc. reflexivity.
Qed.

Lemma crossing_scan_negated (tol flags : float) (x : list float) :
  crossing_scan tol flags (map PrimFloat.opp x)
  = lift flip_sides (crossing_scan tol flags x).
Proof.
  unfold crossing_scan.
  replace (len (map PrimFloat.opp x)) with (len x)
    by (unfold len; rewrite length_map; reflexivity).
  change [(0, Star)] with (flip_sides [(0, Star)]) at 1.
  apply for_each_lift. intros acc i Hi.
  apply scan_step_negated. apply range2_In in Hi. exact Hi.
Qed.

Lemma rt_extract_flipped {F : Type} `{Scalar F} (dt : F) (cs : list crossing) :
  rt_extract dt (flip_sides cs) = rt_extract dt cs.
Proof.
  unfold rt_extract, flip_sides. rewrite map_map. reflexivity.
Qed.

(** X10: in binary64 the two thresholds are treated alike, whatever the
    samples (NaN, infinities and signed zeros included): on the negated
    signal [residence_time] reports the crossings at the same indices
    with the sides exchanged, and the same time series and distribution;
    it raises on the one signal exactly when it raises on the other. *)
Theorem negated_signal_flips_sides (tol dt flags : float) (x : list float) :
  residence_time_with tol dt (map PrimFloat.opp x) flags
  = match residence_time_with tol dt x flags with
    | Ok (ci, rts, rtd) => Ok (flip_sides ci, rts, rtd)
    | Raise e => Raise e
    end.
Proof.
  unfold residence_time_with. rewrite crossing_scan_negated.
  destruct (crossing_scan tol flags x) as [acc|e]; simpl; [|reflexivity].
  replace (tl (flip_sides acc)) with (flip_sides (tl acc))
    by (destruct acc; reflexivity).
  rewrite rt_extract_flipped.
  destruct (rt_extract dt (tl acc)) as [[rts rtd]|e]; reflexivity.
Qed.

(* ================================================================== *)
(** ** signal_ensemble: the ticks of the time axis *)
(* ================================================================== *)

Lemma range3_length (start stop step : Z) :
  length (range3 start stop step)
  = Z.to_nat ((stop - start + step - 1) / step).
Proof. unfold range3. rewrite length_map, length_seq. reflexivity. Qed.

Lemma range3_nth (start stop step : Z) (j : nat) :
  (j < length (range3 start stop step))%nat ->
  nth_error (range3 start stop step) j = Some (start + Z.of_nat j * step).
Proof.
  rewrite range3_length. intros Hj.
  unfold range3. rewrite nth_error_map, nth_error_seq.
  replace (j <? Z.to_nat ((stop - start + step - 1) / step))%nat with true
    by (symmetry; apply Nat.ltb_lt; exact Hj).
  reflexivity.
Qed.

(** A position of [range(start, stop, step)] lies below [stop]. *)
Lemma range3_below (start stop step : Z) (j : nat) :
  0 < step ->
  (j < length (range3 start stop step))%nat ->
  start + Z.of_nat j * step < stop.
Proof.
  rewrite range3_length. intros Hstep Hj.
  assert (Hq : Z.of_nat j < (stop - start + step - 1) / step) by lia.
  assert (Hmul : step * ((stop - start + step - 1) / step)
                 <= stop - start + step - 1)
    by (apply Z.mul_div_le; exact Hstep).
  nia.
Qed.

Lemma slice_step_nth {A : Type} (l : list A) (step : Z) :
  0 < step ->
  length (slice_step l step) = length (range3 0 (len l) step)
  /\ forall j : nat,
       (j < length (range3 0 (len l) step))%nat ->
       nth_error (slice_step l step) j
       = nth_error l (Z.to_nat (Z.of_nat j * step)).
Proof.
  intros Hstep. unfold slice_step.
  assert (Hin : forall j, (j < length (range3 0 (len l) step))%nat ->
                exists v, nth_error l (Z.to_nat (Z.of_nat j * step)) = Some v).
  { intros j Hj. pose proof (range3_below 0 (len l) step j Hstep Hj) as Hlt.
    destruct (nth_error l (Z.to_nat (Z.of_nat j * step))) as [v|] eqn:E;
      [eauto|].
    apply nth_error_None in E. unfold len in Hlt. nia. }
  assert (Hnth : forall j, (j < length (range3 0 (len l) step))%nat ->
                 nth_error (range3 0 (len l) step) j
                 = Some (Z.of_nat j * step)).
  { intros j Hj. rewrite range3_nth by exact Hj. reflexivity. }
  revert Hin Hnth. generalize (range3 0 (len l) step). intros idxs.
  revert idxs.
  assert (Hgen : forall (idxs : list Z) (base : nat),
    (forall j, (j < length idxs)%nat ->
       exists v, nth_error l (Z.to_nat (Z.of_nat (base + j) * step)) = Some v) ->
    (forall j, (j < length idxs)%nat ->
       nth_error idxs j = Some (Z.of_nat (base + j) * step)) ->
    length (flat_map (fun i => match nth_error l (Z.to_nat i) with
                               | Some v => [v] | None => [] end) idxs)
    = length idxs
    /\ forall j, (j < length idxs)%nat ->
         nth_error (flat_map (fun i => match nth_error l (Z.to_nat i) with
                                       | Some v => [v] | None => [] end) idxs) j
         = nth_error l (Z.to_nat (Z.of_nat (base + j) * step))).
  { induction idxs as [|i idxs IH]; intros base Hin Hnth.
    - split; [reflexivity|]. intros j Hj. simpl in Hj. lia.
    - assert (Hi : i = Z.of_nat (base + 0) * step).
      { specialize (Hnth 0%nat ltac:(simpl; lia)). simpl in Hnth. congruence. }
      destruct (Hin 0%nat ltac:(simpl; lia)) as (v & Hv).
      destruct (IH (S base)) as [IHlen IHnth].
      { intros j Hj. replace (S base + j)%nat with (base + S j)%nat by lia.
        apply Hin. simpl. lia. }
      { intros j Hj. replace (S base + j)%nat with (base + S j)%nat by lia.
        apply (Hnth (S j)). simpl. lia. }
      cbn [flat_map]. rewrite Hi, Hv. cbn [app]. split.
      + simpl. rewrite IHlen. reflexivity.
      + intros [|j] Hj.
        * simpl. rewrite Hv. reflexivity.
        * simpl. rewrite IHnth by (simpl in Hj; lia).
          replace (S base + j)%nat with (base + S j)%nat by lia. reflexivity. }
  intros idxs Hin Hnth. apply (Hgen idxs 0%nat); assumption.
Qed.

(** X11: [signal_ensemble] always hands ten tick positions
    [0, 100, ..., 900] to [plt.xticks] and one label per hundred samples
    of the time axis, the label of the sample at index [100 * j] being
    the [j]-th one; the positions and the labels are equally many exactly
    when the time axis has more than 900 and at most 1000 samples. *)
Theorem x_ticks_pair_up {F : Type} (fmt : F -> String.string) (ts : list F) :
  fst (x_ticks fmt ts) = [0; 100; 200; 300; 400; 500; 600; 700; 800; 900]
  /\ length (snd (x_ticks fmt ts)) = Z.to_nat ((len ts + 99) / 100)
  /\ (forall (j : nat) (t : F),
        nth_error ts (100 * j) = Some t ->
        nth_error (snd (x_ticks fmt ts)) j = Some (fmt t))
  /\ (length (fst (x_ticks fmt ts)) = length (snd (x_ticks fmt ts))
      <-> 900 < len ts <= 1000).
Proof.
  destruct (slice_step_nth ts 100 ltac:(lia)) as [Hlen Hnth].
  rewrite range3_length in Hlen.
  assert (Hcount : length (snd (x_ticks fmt ts))
                   = Z.to_nat ((len ts + 99) / 100)).
  { unfold x_ticks. cbn [snd]. rewrite length_map, Hlen.
    f_equal. f_equal. lia. }
  split; [reflexivity|]. split; [exact Hcount|]. split.
  - intros j t Ht. unfold x_ticks. cbn [snd].
    assert (Hj : (j < length (range3 0 (len ts) 100))%nat).
    { rewrite range3_length.
      assert (Hlt : (100 * j < length ts)%nat)
        by (apply nth_error_Some; congruence).
      assert (Hq : Z.of_nat j < (len ts - 0 + 100 - 1) / 100)
        by (unfold len; Z.to_euclidean_division_equations; lia).
      lia. }
    rewrite nth_error_map, (Hnth j Hj).
    replace (Z.to_nat (Z.of_nat j * 100)) with (100 * j)%nat by lia.
    rewrite Ht. reflexivity.
  - rewrite Hcount. change (length (fst (x_ticks fmt ts))) with 10%nat.
    pose proof (len_nonneg ts) as Hpos.
    split; intros E.
    + assert (Hq : (len ts + 99) / 100 = 10) by lia.
      Z.to_euclidean_division_equations. lia.
    + assert (Hq : (len ts + 99) / 100 = 10)
        by (Z.to_euclidean_division_equations; lia).
      rewrite Hq. reflexivity.
Qed.

(* ================================================================== *)
(** ** Longer signals *)
(* ================================================================== *)

Lemma for_each_app {S : Type} (body : S -> Z -> result S) (l1 l2 : list Z)
  (s : S) :
  for_each body (l1 ++ l2) s = bind (for_each body l1 s) (for_each body l2).
Proof.
  revert s. induction l1 as [|i l1 IH]; intros s; [reflexivity|].
  simpl. destruct (body s i) as [s'|e]; simpl; [apply IH | reflexivity].
Qed.

Lemma for_each_ext {S : Type} (body1 body2 : S -> Z -> result S)
  (idxs : list Z) :
  (forall i s, In i idxs -> body1 s i = body2 s i) ->
  forall s, for_each body1 idxs s = for_each body2 idxs s.
Proof.
  induction idxs as [|i idxs IH]; intros Hext s; [reflexivity|].
  simpl. rewrite Hext by (left; reflexivity).
  destruct (body2 s i); simpl; [|reflexivity].
  apply IH. intros j t Hj. apply Hext. right. exact Hj.
Qed.

Lemma getitem_app_front {A : Type} (x y : list A) (k : Z) :
  0 <= k < len x -> getitem (x ++ y) k = getitem x k.
Proof.
  intros Hk. pose proof (len_nonneg y) as Hy.
  destruct (getitem_front x k Hk) as (v & Hv & Hn).
  destruct (getitem_front (x ++ y) k) as (w & Hw & Hm);
    [rewrite len_app; lia|].
  rewrite nth_error_app1 in Hm by (unfold len in Hk; lia).
  congruence.
Qed.

Section Causality.

Context {F : Type} `{Scalar F}.

(** Past index 0 the candidate side of a sample depends on the sample and
    its predecessor only. *)
Lemma candidate_side_prefix (tol flags : F) (x y : list F) (i : Z) :
  1 <= i < len x ->
  candidate_side tol flags (x ++ y) i = candidate_side tol flags x i.
Proof.
  intros Hi. unfold candidate_side.
  rewrite !getitem_app_front by lia. reflexivity.
Qed.

Lemma scan_step_prefix (tol flags : F) (x y : list F) (acc : list crossing)
  (i : Z) :
  candidate_side tol flags (x ++ y) 0 = candidate_side tol flags x 0 ->
  0 <= i < len x ->
  scan_step tol flags (x ++ y) acc i = scan_step tol flags x acc i.
Proof.
  intros H0 Hi. pose proof (len_nonneg y) as Hy.
  rewrite (scan_step_by_candidate tol flags (x ++ y))
    by (rewrite len_app; lia).
  rewrite (scan_step_by_candidate tol flags x) by exact Hi.
  destruct (Z.eq_dec i 0) as [-> | Hnz].
  - rewrite H0. reflexivity.
  - rewrite candidate_side_prefix by lia. reflexivity.
Qed.

End Causality.

(** X12: the scan looks back one sample only, except at index 0, where
    it reads the last sample.  So when the sample at index 0 is judged
    the same in a signal and in its extension (as it is when the signal
    starts with a sample that is exactly 0), the rows the scan accepts on
    the extended signal are the rows it accepts on the signal itself,
    followed by rows at the indices of the added samples. *)
Theorem scan_of_extended_signal {F : Type} `{Scalar F} (tol flags : F)
  (x y : list F) :
  candidate_side tol flags (x ++ y) 0 = candidate_side tol flags x 0 ->
  exists acc more : list crossing,
    crossing_scan tol flags x = Ok acc
    /\ crossing_scan tol flags (x ++ y) = Ok (acc ++ more)
    /\ Forall (fun c => len x <= fst c < len (x ++ y)) more.
Proof.
  intros H0. pose proof (len_nonneg x) as Hx. pose proof (len_nonneg y) as Hy.
  destruct (crossing_scan_inv tol flags x) as (acc & Hscan & _).
  exists acc.
  unfold crossing_scan in *. unfold range in *.
  rewrite (range2_app 0 (len x) (len (x ++ y))) by (rewrite len_app; lia).
  rewrite for_each_app.
  rewrite (for_each_ext (scan_step tol flags (x ++ y)) (scan_step tol flags x))
    by (intros i s Hi; apply range2_In in Hi;
        apply scan_step_prefix; assumption).
  rewrite Hscan. cbn [bind].
  destruct (for_each_range_inv (scan_step tol flags (x ++ y))
              (fun i a => exists more,
                   a = acc ++ more
                   /\ Forall (fun c : crossing => len x <= fst c < i) more)
              (Z.to_nat (len (x ++ y) - len x)) (len x) (len (x ++ y)) acc)
    as (acc' & Hrun & more & -> & Hmore).
  - reflexivity.
  - rewrite len_app. lia.
  - exists []. split; [rewrite app_nil_r; reflexivity | constructor].
  - intros i a Hi (more & -> & Hmore).
    destruct (scan_step_outcome tol flags (x ++ y) (acc ++ more) i)
      as (a' & Hstep & Hout); [lia|].
    exists a'. split; [exact Hstep|].
    destruct Hout as [-> | (s & _ & -> & _)].
    + exists more. split; [reflexivity|].
      eapply Forall_impl; [|exact Hmore]. simpl; intros c Hc; lia.
    + exists (more ++ [(i, s)]). split; [rewrite app_assoc; reflexivity|].
      apply Forall_app. split.
      * eapply Forall_impl; [|exact Hmore]. simpl; intros c Hc; lia.
      * constructor; [simpl; lia | constructor].
  - exists more. split; [reflexivity|]. split; [exact Hrun | exact Hmore].
Qed.

(** A signal that starts at 0, rises to the upper threshold, and is then
    extended by a sample on the lower threshold, in binary64. *)
Lemma scan_of_extended_signal_witness :
  exists acc more : list crossing,
    crossing_scan tol 1%float [0; 0.5; 1]%float = Ok acc
    /\ crossing_scan tol 1%float ([0; 0.5; 1] ++ [-1])%float
       = Ok (acc ++ more)
    /\ Forall (fun c => len [0; 0.5; 1]%float <= fst c
                         < len ([0; 0.5; 1] ++ [-1])%float) more.
Proof.
  apply (scan_of_extended_signal (F := float) tol 1%float
           [0; 0.5; 1]%float [-1]%float).
  vm_compute. reflexivity.
Defined.
